(** * Marigold material pipeline ([marigold/albedo_pipeline.py]):
      a shallow embedding of [MaterialPipeline] and its properties.

    Numbers.  Python's [float] and NumPy's [float32] are IEEE-754 binary
    formats.  A finite float is a rational, and every operation returns the
    exact result rounded to nearest, ties to even, on [p] significant bits
    ([p = 53] for Python floats, [p = 24] for [float32]).  [Fl.round] is that
    rounding on [Q]; the exponent range is not bounded, so overflow and
    gradual underflow are outside the model.  It is used where the code
    turns floats into integers: the size of the resized image, the batch
    size and the rendered bytes.

    Tensors.  A tensor is a shape and a list of elements, each a rational,
    an infinity or a NaN.  What torch computes on tensors (the mean over
    the ensemble, the product and the quotient by the latent scale factor)
    is taken in exact arithmetic; the rounding of torch's kernels is not
    modelled.  The networks, the denoising loop and the resampling filters
    are parameters ([Runtime]).

    Effects.  A call runs in a state and error monad whose state holds
    torch's random generator and a log of the resizings and predictions
    done so far. *)

From Stdlib Require Import ZArith QArith Qround Qpower Qabs Qcanon.
From Stdlib Require Import List Bool Lia Lqa.
From Stdlib Require Import Strings.Byte.
Import ListNotations.

Local Open Scope Z_scope.

(* ================================================================== *)
(** ** Rounding to nearest on [p] bits *)

Module Fl.

Definition pow2 (e : Z) : Q := ((2 # 1) ^ e)%Q.

(** [ilog2 x] is the binade of a positive [x]:
    [2^(ilog2 x) <= x < 2^(ilog2 x + 1)]. *)
Definition ilog2 (x : Q) : Z :=
  let k := Z.log2 (Qnum x) - Z.log2 (Zpos (Qden x)) in
  if Qle_bool (pow2 k) x then k else k - 1.

(** Nearest integer, ties to the even one. *)
Definition rne (q : Q) : Z :=
  let f := Qfloor q in
  match (q - inject_Z f ?= 1 # 2)%Q with
  | Lt => f
  | Gt => f + 1
  | Eq => if Z.even f then f else f + 1
  end.

Definition round_pos (p : Z) (x : Q) : Q :=
  let e := ilog2 x - (p - 1) in
  (inject_Z (rne (x / pow2 e)) * pow2 e)%Q.

Definition round (p : Z) (x : Q) : Q :=
  Qred match Qnum x with
       | Z0 => 0%Q
       | Zpos _ => round_pos p x
       | Zneg _ => (- round_pos p (- x))%Q
       end.

(** Python [float] (binary64) and NumPy [float32]. *)
Definition f64 : Q -> Q := round 53.
Definition f32 : Q -> Q := round 24.

End Fl.

(* ================================================================== *)
(** ** Python and NumPy scalar operations *)

Module Py.
Import Fl.
Local Open Scope Q_scope.

(** [a / b] on two [int]s: the exact quotient, correctly rounded.  The
    callers rule out a zero divisor. *)
Definition truediv (a b : Z) : Q := f64 (inject_Z a / inject_Z b).

(** [a * x] and [a / x] with an [int] and a [float]: the [int] is
    converted first. *)
Definition mul_int_float (a : Z) (x : Q) : Q := f64 (f64 (inject_Z a) * x).
Definition div_int_float (a : Z) (x : Q) : Q := f64 (f64 (inject_Z a) / x).

(** [int(x)]: truncation towards zero. *)
Definition int (x : Q) : Z := if Qle_bool 0 x then Qfloor x else Qceiling x.

(** [math.ceil(x)]. *)
Definition ceil (x : Q) : Z := Qceiling x.

(** [min(x, y)] on floats: the first argument unless the second is smaller. *)
Definition min (x y : Q) : Q := if Qlt_le_dec y x then y else x.

End Py.

(* ================================================================== *)
(** ** Array elements, tensors and images *)

(** An element of a float array: not-a-number, an infinity or a finite
    value.  Finite values are canonical rationals, so that two arrays are
    equal exactly when their elements are the same numbers. *)
Inductive fval : Type :=
| NaN
| Inf (neg : bool)
| Fin (q : Qc).

Module FVal.
Local Open Scope Qc_scope.

(** IEEE [a <= b]: false as soon as one side is not a number. *)
Definition leb (a b : fval) : bool :=
  match a, b with
  | NaN, _ | _, NaN => false
  | Inf true, _ => true
  | _, Inf false => true
  | Inf false, _ => false
  | _, Inf true => false
  | Fin x, Fin y => Qle_bool x y
  end.

(** [torch.min] and [torch.max] of two elements; a NaN wins. *)
Definition min (a b : fval) : fval :=
  match a, b with
  | NaN, _ | _, NaN => NaN
  | _, _ => if leb a b then a else b
  end.

Definition max (a b : fval) : fval :=
  match a, b with
  | NaN, _ | _, NaN => NaN
  | _, _ => if leb a b then b else a
  end.

Definition add (a b : fval) : fval :=
  match a, b with
  | NaN, _ | _, NaN => NaN
  | Inf s, Inf s' => if Bool.eqb s s' then Inf s else NaN
  | Inf s, Fin _ | Fin _, Inf s => Inf s
  | Fin x, Fin y => Fin (x + y)
  end.

(** Sign of a finite constant: [Lt], [Eq] or [Gt] against zero. *)
Definition sign (c : Qc) : comparison := (c ?= 0).

Definition mul (a : fval) (c : Qc) : fval :=
  match a with
  | NaN => NaN
  | Inf s => match sign c with Gt => Inf s | Lt => Inf (negb s) | Eq => NaN end
  | Fin x => Fin (x * c)
  end.

Definition div (a : fval) (c : Qc) : fval :=
  match a with
  | NaN => NaN
  | Inf s => match sign c with Lt => Inf (negb s) | _ => Inf s end
  | Fin x =>
      match sign c with
      | Eq => match sign x with Gt => Inf false | Lt => Inf true | Eq => NaN end
      | _ => Fin (x / c)
      end
  end.

(** [torch.clip(x, lo, hi)] on one element. *)
Definition clip (lo hi : Qc) (a : fval) : fval := min (max a (Fin lo)) (Fin hi).

(** Conversion of an element to a format of [p] significant bits. *)
Definition cast (p : Z) (a : fval) : fval :=
  match a with
  | Fin x => Fin (Q2Qc (Fl.round p x))
  | _ => a
  end.

End FVal.

(** A tensor or array: its shape and its elements in row-major order. *)
Record Tensor : Type := { shape : list Z; data : list fval }.

(** A PIL image: its size and, pixel by pixel in row-major order, the
    three bytes that [convert("RGB")] gives. *)
Record Image : Type := {
  img_width : Z;
  img_height : Z;
  img_rgb : list (Byte.byte * Byte.byte * Byte.byte)
}.

(** An 8-bit image made by [Image.fromarray]. *)
Record ByteImage : Type := { bi_shape : list Z; bi_bytes : list Z }.

Inductive DType : Type := float16 | bfloat16 | float32 | float64.

Definition DType_eqb (a b : DType) : bool :=
  match a, b with
  | float16, float16 | bfloat16, bfloat16 | float32, float32 | float64, float64 => true
  | _, _ => false
  end.

(** Significant bits of each format. *)
Definition precision (d : DType) : Z :=
  match d with float16 => 11 | bfloat16 => 8 | float32 => 24 | float64 => 53 end.

Inductive exn : Type :=
| AssertionError | ZeroDivisionError | TypeError | RuntimeError | ValueError
| IndexError | Exception.

Inductive outcome (A : Type) : Type :=
| Ok (a : A)
| Raise (e : exn).
Arguments Ok {A} a.
Arguments Raise {A} e.

Module TensorOps.

Definition numel (sh : list Z) : Z := fold_right Z.mul 1 sh.

Definition ndim (t : Tensor) : Z := Z.of_nat (length (shape t)).

(** [t.squeeze(0)]: the leading dimension goes when it is 1. *)
Definition squeeze0 (t : Tensor) : Tensor :=
  match shape t with
  | 1 :: sh => {| shape := sh; data := data t |}
  | _ => t
  end.

(** [t.squeeze()]: every dimension of size 1 goes. *)
Definition squeeze (t : Tensor) : Tensor :=
  {| shape := filter (fun d => negb (d =? 1)) (shape t); data := data t |}.

Definition map (f : fval -> fval) (t : Tensor) : Tensor :=
  {| shape := shape t; data := List.map f (data t) |}.

(** [t.min()] and [t.max()] over all elements; torch refuses an empty
    tensor. *)
Definition min (t : Tensor) : outcome fval :=
  match data t with
  | [] => Raise RuntimeError
  | x :: l => Ok (fold_left FVal.min l x)
  end.

Definition max (t : Tensor) : outcome fval :=
  match data t with
  | [] => Raise RuntimeError
  | x :: l => Ok (fold_left FVal.max l x)
  end.

(** [torch.stack(ts)] along a new leading dimension. *)
Definition stack (ts : list Tensor) : outcome Tensor :=
  match ts with
  | [] => Raise RuntimeError
  | t :: _ =>
      if forallb (fun u => if list_eq_dec Z.eq_dec (shape u) (shape t) then true else false) ts
      then Ok {| shape := Z.of_nat (length ts) :: shape t;
                 data := concat (List.map data ts) |}
      else Raise RuntimeError
  end.

Definition shape_tl (t : Tensor) : list Z := tl (shape t).
Definition shape_hd (t : Tensor) : Z := hd 1 (shape t).

(** [torch.concat(ts, axis=0)]. *)
Definition concat0 (ts : list Tensor) : outcome Tensor :=
  match ts with
  | [] => Raise RuntimeError
  | t :: _ =>
      if forallb (fun u => match shape u with
                           | [] => false
                           | _ :: sh => if list_eq_dec Z.eq_dec sh (shape_tl t) then true else false
                           end) ts
      then Ok {| shape := fold_right Z.add 0 (List.map shape_hd ts) :: shape_tl t;
                 data := concat (List.map data ts) |}
      else Raise RuntimeError
  end.

(** Consecutive pieces of [n] elements; the last one may be shorter. *)
Fixpoint pieces_fuel {A} (fuel n : nat) (l : list A) : list (list A) :=
  match fuel, l with
  | _, [] => []
  | O, _ => []
  | S fuel', _ => firstn n l :: pieces_fuel fuel' n (skipn n l)
  end.

Definition pieces {A} (n : nat) (l : list A) : list (list A) :=
  pieces_fuel (length l) n l.

(** Element-wise sum of two equally long rows. *)
Fixpoint add_rows (a b : list fval) : list fval :=
  match a, b with
  | x :: a', y :: b' => FVal.add x y :: add_rows a' b'
  | _, _ => []
  end.

(** [t.mean(dim=0, keepdim=True)]: the leading dimension [n] splits the
    elements into [n] blocks, which are summed position by position and
    divided by [n].  The arithmetic is exact: the rounding of torch's
    reduction kernels is not part of the model. *)
Definition mean0_keepdim (t : Tensor) : Tensor :=
  match shape t with
  | [] => t
  | n :: sh =>
      let inner := Z.to_nat (numel sh) in
      let blocks := firstn (Z.to_nat n) (pieces inner (data t)) in
      let total :=
        match blocks with
        | [] => repeat NaN inner
        | b :: bs => fold_left add_rows bs b
        end in
      {| shape := 1 :: sh;
         data := List.map (fun x => FVal.div x (Q2Qc (inject_Z n))) total |}
  end.

(** [t[:, lo:hi, :, :]] on a tensor of at least two dimensions. *)
Definition slice1 (lo hi : Z) (t : Tensor) : Tensor :=
  match shape t with
  | b :: c :: sh =>
      let inner := Z.to_nat (numel sh) in
      let hi' := Z.min hi c in
      let per_batch := pieces (Z.to_nat c * inner) (data t) in
      {| shape := b :: Z.max 0 (hi' - lo) :: sh;
         data := flat_map (fun blk =>
                   firstn (Z.to_nat (hi' - lo) * inner) (skipn (Z.to_nat lo * inner) blk))
                   per_batch |}
  | _ => t
  end.

(** [t.permute(1, 2, 0)] on a three-dimensional tensor [c, h, w]. *)
Definition permute120 (t : Tensor) : outcome Tensor :=
  match shape t with
  | [c; h; w] =>
      let plane := Z.to_nat (h * w) in
      let planes := pieces plane (data t) in
      Ok {| shape := [h; w; c];
            data := flat_map (fun i =>
                      flat_map (fun pl => match nth_error pl i with
                                          | Some x => [x]
                                          | None => []
                                          end) planes)
                      (seq 0 plane) |}
  | _ => Raise RuntimeError
  end.

End TensorOps.

(* ================================================================== *)
(** ** What the pipeline is given *)

(** The pre-trained networks, the libraries' resampling filters and the
    machine the pipeline runs on.  [G] is the state of torch's global
    random generator; [denoise] stands for the body of the denoising loop
    of [single_infer] (initial noise, text embedding, U-Net and scheduler
    steps), which takes the image latent and the number of steps. *)
Class Runtime : Type := {
  G : Type;
  pipeline_dtype : DType;
  cuda_is_available : bool;
  cuda_total_memory : Z;
  pil_resample : Image -> Z -> Z -> list (Byte.byte * Byte.byte * Byte.byte);
  vae_beauty_encoder : Tensor -> Tensor;
  vae_beauty_quant_conv : Tensor -> Tensor;
  vae_albedo_post_quant_conv : Tensor -> Tensor;
  vae_albedo_decoder : Tensor -> Tensor;
  denoise : G -> Tensor -> Z -> G * Tensor;
  tv_resize_bicubic : Z * Z -> Tensor -> Tensor
}.

(* ================================================================== *)
(** ** [MaterialPipeline.resize_max_res] *)

Definition downscale_factor (original_width original_height max_edge_resolution : Z) : Q :=
  Py.min (Py.truediv max_edge_resolution original_width)
         (Py.truediv max_edge_resolution original_height).

(** The size handed to [img.resize]. *)
Definition resize_dims (original_width original_height max_edge_resolution : Z) : Z * Z :=
  let downscale_factor :=
    downscale_factor original_width original_height max_edge_resolution in
  let new_width := Py.int (Py.mul_int_float original_width downscale_factor) in
  let new_height := Py.int (Py.mul_int_float original_height downscale_factor) in
  (new_width, new_height).

(** [img.resize(size)]: an image of that size, filled by PIL's filter.
    What PIL itself does with a size it refuses is not part of the model. *)
Definition pil_resize `{Runtime} (img : Image) (size : Z * Z) : Image :=
  {| img_width := fst size; img_height := snd size;
     img_rgb := pil_resample img (fst size) (snd size) |}.

Definition resize_max_res `{Runtime} (img : Image) (max_edge_resolution : Z) : outcome Image :=
  if (img_width img =? 0) || (img_height img =? 0) then Raise ZeroDivisionError
  else Ok (pil_resize img (resize_dims (img_width img) (img_height img) max_edge_resolution)).

(* ================================================================== *)
(** ** [MaterialPipeline._find_batch_size] *)

Record settings : Type := { res : Z; total_vram : Z; bs : Z; dtype : DType }.

Definition bs_search_table : list settings :=
  [ (* tested on A100-PCIE-80GB *)
    {| res := 768; total_vram := 79; bs := 35; dtype := float32 |};
    {| res := 1024; total_vram := 79; bs := 20; dtype := float32 |};
    (* tested on A100-PCIE-40GB *)
    {| res := 768; total_vram := 39; bs := 15; dtype := float32 |};
    {| res := 1024; total_vram := 39; bs := 8; dtype := float32 |};
    {| res := 768; total_vram := 39; bs := 30; dtype := float16 |};
    {| res := 1024; total_vram := 39; bs := 15; dtype := float16 |};
    (* tested on RTX3090, RTX4090 *)
    {| res := 512; total_vram := 23; bs := 20; dtype := float32 |};
    {| res := 768; total_vram := 23; bs := 7; dtype := float32 |};
    {| res := 1024; total_vram := 23; bs := 3; dtype := float32 |};
    {| res := 512; total_vram := 23; bs := 40; dtype := float16 |};
    {| res := 768; total_vram := 23; bs := 18; dtype := float16 |};
    {| res := 1024; total_vram := 23; bs := 10; dtype := float16 |};
    (* tested on GTX1080Ti *)
    {| res := 512; total_vram := 10; bs := 5; dtype := float32 |};
    {| res := 768; total_vram := 10; bs := 2; dtype := float32 |};
    {| res := 512; total_vram := 10; bs := 10; dtype := float16 |};
    {| res := 768; total_vram := 10; bs := 5; dtype := float16 |};
    {| res := 1024; total_vram := 10; bs := 3; dtype := float16 |} ].

(** The sort key [(k["res"], -k["total_vram"])], compared as tuples. *)
Definition key_leb (a b : settings) : bool :=
  (res a <? res b) || ((res a =? res b) && (- total_vram a <=? - total_vram b)).

(** [sorted(l, key=...)]: a stable sort. *)
Fixpoint insert_sorted (x : settings) (l : list settings) : list settings :=
  match l with
  | [] => [x]
  | y :: l' => if key_leb x y then x :: y :: l' else y :: insert_sorted x l'
  end.

Definition sorted (l : list settings) : list settings := fold_right insert_sorted [] l.

(** The two clamps applied to the batch size of the selected entry. *)
Definition clamp_bs (ensemble_size bs0 : Z) : Z :=
  if bs0 >? ensemble_size then ensemble_size
  else if (bs0 >? Py.ceil (Py.truediv ensemble_size 2)) && (bs0 <? ensemble_size)
       then Py.ceil (Py.truediv ensemble_size 2)
       else bs0.

(** Whether an entry fits the input and the memory of the device. *)
Definition fits (input_res : Z) (vram : Q) (s : settings) : bool :=
  (input_res <=? res s) && Qle_bool (inject_Z (total_vram s)) vram.

(** The [for] loop: the first entry that fits decides. *)
Fixpoint scan_table (ensemble_size input_res : Z) (vram : Q) (l : list settings) : Z :=
  match l with
  | [] => 1
  | s :: l' =>
      if fits input_res vram s then clamp_bs ensemble_size (bs s)
      else scan_table ensemble_size input_res vram l'
  end.

Definition _find_batch_size `{Runtime} (ensemble_size input_res : Z) (dt : DType) : Z :=
  if negb cuda_is_available then 1
  else
    let vram := Py.div_int_float cuda_total_memory (inject_Z (1024 ^ 3)) in
    let filtered_bs_search_table := filter (fun s => DType_eqb (dtype s) dt) bs_search_table in
    scan_table ensemble_size input_res vram (sorted filtered_bs_search_table).

(* ================================================================== *)
(** ** Calls with effects *)

(** What a run of the pipeline does that can be observed from outside:
    resizing the input image and running a prediction on a batch. *)
Inductive event : Type :=
| EvResize (img : Image) (max_edge_resolution : Z)
| EvInfer (rgb_in : Tensor) (num_inference_steps : Z).

Section Effects.
Context `{Runtime}.

Record world : Type := { rng : G; log : list event }.

(** A computation reads and changes the world, and returns or raises. *)
Definition M (A : Type) : Type := world -> outcome A * world.

Definition ret {A} (a : A) : M A := fun w => (Ok a, w).

Definition raise {A} (e : exn) : M A := fun w => (Raise e, w).

Definition bind {A B} (m : M A) (f : A -> M B) : M B :=
  fun w => match m w with
           | (Ok a, w') => f a w'
           | (Raise e, w') => (Raise e, w')
           end.

Definition lift {A} (o : outcome A) : M A := fun w => (o, w).

Definition assert_ (b : bool) : M unit :=
  if b then ret tt else raise AssertionError.

Definition emit (e : event) : M unit :=
  fun w => (Ok tt, {| rng := rng w; log := log w ++ [e] |}).

Definition run_denoise (rgb_latent : Tensor) (steps : Z) : M Tensor :=
  fun w => let (g, t) := denoise (rng w) rgb_latent steps in
           (Ok t, {| rng := g; log := log w |}).

End Effects.

Declare Scope pipeline_scope.
Delimit Scope pipeline_scope with pipeline.
Notation "x <- m ;; k" := (bind m (fun x => k))
  (at level 61, m at next level, right associativity) : pipeline_scope.
Notation "m ;; k" := (bind m (fun _ => k))
  (at level 61, right associativity) : pipeline_scope.

(* ================================================================== *)
(** ** Encoding, decoding, one prediction, ensembling *)

Section Predictor.
Context `{Runtime}.
Local Open Scope pipeline_scope.

(** The class attributes; [0.18215] is a Python float. *)
Definition rgb_latent_scale_factor : Qc := Q2Qc (Fl.f64 (18215 # 100000)).
Definition brdf_latent_scale_factor : Qc := Q2Qc (Fl.f64 (18215 # 100000)).

(** [torch.chunk(t, 2, dim=1)] unpacked into two names. *)
Definition chunk2_dim1 (t : Tensor) : outcome (Tensor * Tensor) :=
  match shape t with
  | _ :: c :: _ =>
      if c <=? 1 then Raise ValueError
      else let k := (c + 1) / 2 in
           Ok (TensorOps.slice1 0 k t, TensorOps.slice1 k c t)
  | _ => Raise IndexError
  end.

Definition _encode_rgb (rgb_in : Tensor) : outcome Tensor :=
  if TensorOps.ndim rgb_in =? 4 then
    let h := vae_beauty_encoder rgb_in in
    let moments := vae_beauty_quant_conv h in
    match chunk2_dim1 moments with
    | Ok (mean, logvar) =>
        (* scale latent, deterministic encoding *)
        let rgb_latent := TensorOps.map (fun x => FVal.mul x rgb_latent_scale_factor) mean in
        Ok rgb_latent
    | Raise e => Raise e
    end
  else Raise AssertionError.

Definition _decode_brdf (brdf_latent : Tensor) : outcome Tensor :=
  (* scale latent *)
  let brdf_latent := TensorOps.map (fun x => FVal.div x brdf_latent_scale_factor) brdf_latent in
  (* decode *)
  if TensorOps.ndim brdf_latent =? 4 then
    let z := vae_albedo_post_quant_conv (TensorOps.slice1 0 4 brdf_latent) in
    let albedo := vae_albedo_decoder z in
    Ok albedo
  else Raise IndexError.

Definition single_infer (rgb_in : Tensor) (num_inference_steps : Z) : M Tensor :=
  emit (EvInfer rgb_in num_inference_steps) ;;
  rgb_latent <- lift (_encode_rgb rgb_in) ;;
  brdf_latent <- run_denoise rgb_latent num_inference_steps ;;
  brdf <- lift (_decode_brdf brdf_latent) ;;
  (* clip prediction *)
  ret (TensorOps.map (FVal.clip (Q2Qc (-1)) (Q2Qc 1)) brdf).

Definition _ensemble_brdfs (brdf_preds : Tensor) : Tensor :=
  TensorOps.mean0_keepdim brdf_preds.

End Predictor.

(* ================================================================== *)
(** ** Rendering the prediction *)

Module Colorize.

(** The largest finite [float32]. *)
Definition f32_max : Q := inject_Z ((2 ^ 24 - 1) * 2 ^ 104).

(** [np.nan_to_num(x, nan=nan)] on a [float32] element. *)
Definition nan_to_num (nan : Qc) (v : fval) : fval :=
  match v with
  | NaN => Fin nan
  | Inf false => Fin (Q2Qc f32_max)
  | Inf true => Fin (Q2Qc (- f32_max))
  | Fin _ => v
  end.

(** [x.astype(np.uint8)] on a [float32] element: the fraction is
    dropped.  The elements that reach it lie between 0 and 255. *)
Definition to_uint8 (v : fval) : Z :=
  match v with
  | Fin q => Py.int q mod 256
  | _ => 0
  end.

(** [albedo_pred + 1 / 2] on a [float32] element: [1 / 2] is the Python
    float one half, and the sum is rounded to [float32]. *)
Definition add_half (v : fval) : fval :=
  FVal.cast 24 (FVal.add v (Fin (Q2Qc (Py.truediv 1 2)))).

Definition times_255 (v : fval) : fval :=
  FVal.cast 24 (FVal.mul v (Q2Qc (inject_Z 255))).

(** The four lines under [# Colorize]: the array that is returned as
    [albedo_np] and the image that is returned as [albedo_pil]. *)
Definition colorize (albedo_pred : Tensor) : Tensor * ByteImage :=
  let albedo_pred := TensorOps.map (nan_to_num (Q2Qc 0)) albedo_pred in
  let albedo_color :=
    TensorOps.map (fun x => FVal.clip (Q2Qc 0) (Q2Qc 1) (add_half x)) albedo_pred in
  let albedo_color := List.map (fun x => to_uint8 (times_255 x)) (data albedo_color) in
  (albedo_pred, {| bi_shape := shape albedo_pred; bi_bytes := albedo_color |}).

(** The byte that one element of the prediction is rendered as. *)
Definition colorize_value (v : fval) : Z :=
  to_uint8 (times_255 (FVal.clip (Q2Qc 0) (Q2Qc 1) (add_half (nan_to_num (Q2Qc 0) v)))).

End Colorize.

(* ================================================================== *)
(** ** [MaterialPipeline.__call__] *)

Inductive Input : Type :=
| InImage (img : Image)
| InTensor (t : Tensor).

Record MaterialOutput : Type := {
  albedo_np : Tensor;
  albedo_pil : ByteImage;
  uncertainty : option Tensor
}.

Section Call.
Context `{Runtime}.
Local Open Scope pipeline_scope.

(** [input_image.size]: the size of an image; on a tensor, a bound
    method, which cannot be indexed later. *)
Definition size_of (input_image : Input) : option (Z * Z) :=
  match input_image with
  | InImage img => Some (img_width img, img_height img)
  | InTensor _ => None
  end.

(** One byte through [rgb / 255.0 * 2.0 - 1.0], in [float64]. *)
Definition normalize_byte (b : Byte.byte) : Q :=
  Fl.f64 (Fl.f64 (Py.truediv (Z.of_N (Byte.to_N b)) 255 * 2) - 1).

(** [convert("RGB")], [np.asarray], the transposition to [rgb, H, W],
    the normalisation and the conversion to the pipeline's format. *)
Definition image_to_tensor (img : Image) : Tensor :=
  let value b := FVal.cast (precision pipeline_dtype) (Fin (Q2Qc (normalize_byte b))) in
  let px := img_rgb img in
  {| shape := [3; img_height img; img_width img];
     data := List.map (fun p => value (fst (fst p))) px
          ++ List.map (fun p => value (snd (fst p))) px
          ++ List.map (fun p => value (snd p)) px |}.

(** [assert rgb_norm.min() >= -1.0 and rgb_norm.max() <= 1.0]. *)
Definition assert_unit_range (rgb_norm : Tensor) : M unit :=
  lo <- lift (TensorOps.min rgb_norm) ;;
  if FVal.leb (Fin (Q2Qc (-1))) lo
  then hi <- lift (TensorOps.max rgb_norm) ;;
       assert_ (FVal.leb hi (Fin (Q2Qc 1)))
  else raise AssertionError.

(** Lines 143 to 176: the assertions on the arguments and the
    normalised input.  [processing_res] is an [int], so the assertion
    [processing_res is not None], made when [match_input_res] is off, holds
    and is left out. *)
Definition preprocess (input_image : Input) (denoising_steps ensemble_size processing_res : Z)
  : M Tensor :=
  assert_ (processing_res >=? 0) ;;
  assert_ (denoising_steps >=? 1) ;;
  assert_ (ensemble_size >=? 1) ;;
  rgb_norm <-
    match input_image with
    | InImage img =>
        (* Resize image *)
        img' <- (if processing_res >? 0
                 then emit (EvResize img processing_res) ;;
                      lift (resize_max_res img processing_res)
                 else ret img) ;;
        ret (image_to_tensor img')
    | InTensor t =>
        let rgb_norm := TensorOps.squeeze0 t in
        assert_ (TensorOps.ndim rgb_norm =? 3) ;;
        ret rgb_norm
    end ;;
  assert_unit_range rgb_norm ;;
  ret rgb_norm.

(** [max(l)] on a sequence of integers. *)
Definition max_of (l : list Z) : outcome Z :=
  match l with
  | [] => Raise ValueError
  | x :: l' => Ok (fold_left Z.max l' x)
  end.

(** The batches a [DataLoader] without shuffling draws from the
    replicated input. *)
Definition batches (samples : list Tensor) (_bs : Z) : outcome (list Tensor) :=
  if _bs <=? 0 then Raise ValueError
  else
    fold_right (fun b acc =>
                  match TensorOps.stack b, acc with
                  | Ok t, Ok ts => Ok (t :: ts)
                  | Raise e, _ => Raise e
                  | _, Raise e => Raise e
                  end)
               (Ok []) (TensorOps.pieces (Z.to_nat _bs) samples).

(** The loop over the batches. *)
Fixpoint infer_batches (bl : list Tensor) (denoising_steps : Z) : M (list Tensor) :=
  match bl with
  | [] => ret []
  | batched_img :: bl' =>
      brdf_pred_raw <- single_infer batched_img denoising_steps ;;
      rest <- infer_batches bl' denoising_steps ;;
      ret (brdf_pred_raw :: rest)
  end.

(** Lines 178 to 209. *)
Definition predict (rgb_norm : Tensor) (denoising_steps ensemble_size batch_size : Z)
  : M Tensor :=
  let samples := repeat rgb_norm (Z.to_nat ensemble_size) in
  _ <- lift (TensorOps.stack samples) ;;
  _bs <- (if batch_size >? 0 then ret batch_size
          else input_res <- lift (max_of (tl (shape rgb_norm))) ;;
               ret (_find_batch_size ensemble_size input_res pipeline_dtype)) ;;
  single_rgb_loader <- lift (batches samples _bs) ;;
  brdf_pred_ls <- infer_batches single_rgb_loader denoising_steps ;;
  cat <- lift (TensorOps.concat0 brdf_pred_ls) ;;
  ret (TensorOps.squeeze cat).

(** Lines 211 to 237: ensembling, resizing back, conversion to a
    [float32] array of shape [H, W, rgb]. *)
Definition postprocess (input_size : option (Z * Z)) (brdf_preds : Tensor)
    (ensemble_size : Z) (match_input_res : bool) : outcome Tensor :=
  match (if ensemble_size >? 1 then Ok (_ensemble_brdfs brdf_preds)
         else if ensemble_size =? 1 then Ok brdf_preds
         else Raise Exception) with
  | Raise e => Raise e
  | Ok albedo_pred =>
      match (if match_input_res
             then match input_size with
                  | Some (w, h) => Ok (tv_resize_bicubic (h, w) albedo_pred)
                  | None => Raise TypeError
                  end
             else Ok albedo_pred) with
      | Raise e => Raise e
      | Ok albedo_pred =>
          match (if TensorOps.ndim albedo_pred =? 4
                 then TensorOps.permute120 (TensorOps.squeeze0 albedo_pred)
                 else if TensorOps.ndim albedo_pred =? 3
                      then TensorOps.permute120 albedo_pred
                      else Raise Exception) with
          | Raise e => Raise e
          | Ok t => Ok (TensorOps.map (FVal.cast 24) t)
          end
      end
  end.

Definition __call__ (input_image : Input)
    (denoising_steps ensemble_size processing_res : Z) (match_input_res : bool)
    (batch_size : Z) : M MaterialOutput :=
  let input_size := size_of input_image in
  rgb_norm <- preprocess input_image denoising_steps ensemble_size processing_res ;;
  brdf_preds <- predict rgb_norm denoising_steps ensemble_size batch_size ;;
  albedo_pred <- lift (postprocess input_size brdf_preds ensemble_size match_input_res) ;;
  let uncert_pred := None in
  (* Colorize *)
  let (albedo_pred, albedo_color) := Colorize.colorize albedo_pred in
  ret {| albedo_np := albedo_pred; albedo_pil := albedo_color; uncertainty := uncert_pred |}.

End Call.

(* ================================================================== *)
(** ** Reference definitions and sample machines *)

(** The entry the loop of [_find_batch_size] stops at, if any. *)
Definition selected_entry `{Runtime} (input_res : Z) (dt : DType) : option settings :=
  let vram := Py.div_int_float cuda_total_memory (inject_Z (1024 ^ 3)) in
  find (fits input_res vram)
       (sorted (filter (fun s => DType_eqb (dtype s) dt) bs_search_table)).

(** Half of the ensemble size, rounded up, in exact arithmetic. *)
Definition ceil_half (ensemble_size : Z) : Z := Qceiling (inject_Z ensemble_size / 2).


(** An edge length that is positive and that a float holds exactly, with
    room for one more bit. *)
Definition edge_ok (z : Z) : Prop := 0 < z < 2 ^ 52.

(** An element that lies in [-1, 1]; a NaN does not. *)
Definition in_range (v : fval) : bool :=
  FVal.leb (Fin (Q2Qc (-1))) v && FVal.leb v (Fin (Q2Qc 1)).

Definition is_infer (e : event) : Prop :=
  match e with EvInfer _ _ => True | EvResize _ _ => False end.

(** A computation that adds to the log only events that satisfy [P]. *)
Definition appends `{Runtime} {A : Type} (P : event -> Prop) (m : M A) : Prop :=
  forall w, exists l, log (snd (m w)) = log w ++ l /\ Forall P l.


Definition resize_events (img : Image) (processing_res : Z) : list event :=
  if processing_res >? 0 then [EvResize img processing_res] else [].


Definition succeeded {A : Type} (o : outcome A) : bool :=
  match o with Ok _ => true | Raise _ => false end.

Definition is_resize (e : event) : bool :=
  match e with EvResize _ _ => true | EvInfer _ _ => false end.

(** Whether a log records a resizing, and whether it records a prediction. *)
Definition resized (l : list event) : bool := existsb is_resize l.
Definition inferred (l : list event) : bool := existsb (fun e => negb (is_resize e)) l.

(** Sample inputs: a mid-grey image and a tensor of zeros [1, 3, 2, 2]. *)
Definition grey_image (w h : nat) : Image :=
  {| img_width := Z.of_nat w; img_height := Z.of_nat h;
     img_rgb := repeat (x80, x80, x80)%byte (w * h) |}.

Definition zeros_1322 : Tensor :=
  {| shape := [1; 3; 2; 2]; data := repeat (Fin (Q2Qc 0)) 12 |}.



(** The sum of [i + 1] copies of an element. *)
Fixpoint copies (i : nat) (v : fval) : fval :=
  match i with
  | O => v
  | S i' => FVal.add (copies i' v) v
  end.

(** A per-sample prediction of shape [sh], with all its elements. *)
Definition sample_of (sh : list Z) (x : Tensor) : Prop :=
  shape x = sh /\ length (data x) = Z.to_nat (TensorOps.numel sh).



Definition and_then {A B : Type} (o : outcome A) (f : A -> outcome B) : outcome B :=
  match o with Ok a => f a | Raise e => Raise e end.

(** The affine map of [-1, 1] onto [0, 255] in exact arithmetic. *)
Definition affine_remap (v : Q) : Q := ((v + 1) / 2 * 255)%Q.

(** A machine without accelerator, whose networks return what they are
    given and whose resampling filter paints black. *)
Definition cpu_runtime : Runtime := {|
  G := unit;
  pipeline_dtype := float32;
  cuda_is_available := false;
  cuda_total_memory := 0;
  pil_resample := fun _ w h => repeat (x00, x00, x00)%byte (Z.to_nat (w * h));
  vae_beauty_encoder := fun t => t;
  vae_beauty_quant_conv := fun t => t;
  vae_albedo_post_quant_conv := fun t => t;
  vae_albedo_decoder := fun t => t;
  denoise := fun g t _ => (g, t);
  tv_resize_bicubic := fun _ t => t
|}.

(** The same with a 24 GB accelerator. *)
Definition gpu_runtime : Runtime := {|
  G := unit;
  pipeline_dtype := float32;
  cuda_is_available := true;
  cuda_total_memory := 25447170048;
  pil_resample := fun _ w h => repeat (x00, x00, x00)%byte (Z.to_nat (w * h));
  vae_beauty_encoder := fun t => t;
  vae_beauty_quant_conv := fun t => t;
  vae_albedo_post_quant_conv := fun t => t;
  vae_albedo_decoder := fun t => t;
  denoise := fun g t _ => (g, t);
  tv_resize_bicubic := fun _ t => t
|}.

(** A world in which nothing has happened yet. *)
Definition fresh_world : @world cpu_runtime := @Build_world cpu_runtime tt [].

(* ================================================================== *)
(** ** The denoising loop of [single_infer], step by step *)

(** [single_infer] above takes lines 296 to 331 as one step of the runtime,
    [denoise].  Here these lines are opened up: the initial noise, the
    embedding of the empty prompt, which is computed on first use and kept
    on the pipeline object, and the loop over the timesteps.  The networks,
    the scheduler and the noise stay parameters: the output of the text
    encoder on the empty prompt, [scheduler.set_timesteps] followed by
    [scheduler.timesteps], [unet(...).sample] and
    [scheduler.step(...).prev_sample], which is given the number of steps
    the scheduler was set to. *)
Class Denoiser `{Runtime} : Type := {
  randn : G -> list Z -> G * Tensor;
  text_encoder_empty_prompt : Tensor;
  scheduler_timesteps : Z -> list Z;
  unet_sample : Tensor -> Z -> Tensor -> Tensor;
  scheduler_step : Z -> Tensor -> Z -> Tensor -> Tensor
}.

(** The calls of the networks, as they can be observed from outside. *)
Inductive net_call : Type :=
| CallTextEncoder
| CallUNet (unet_input : Tensor) (t : Z) (encoder_hidden_states : Tensor).

(** [torch.cat([a, b], dim=1)]: for each index of the leading dimension,
    the block of [a], then the block of [b]. *)
Definition cat_dim1 (a b : Tensor) : outcome Tensor :=
  match shape a, shape b with
  | n :: ca :: sh, n' :: cb :: sh' =>
      if (n =? n') && (if list_eq_dec Z.eq_dec sh sh' then true else false) then
        let inner := Z.to_nat (TensorOps.numel sh) in
        let block (t : Tensor) (c : Z) (i : nat) :=
          firstn (Z.to_nat c * inner) (skipn (i * (Z.to_nat c * inner)) (data t)) in
        Ok {| shape := n :: ca + cb :: sh;
              data := flat_map (fun i => block a ca i ++ block b cb i)
                               (seq 0 (Z.to_nat n)) |}
      else Raise RuntimeError
  | [], _ | _, [] => Raise RuntimeError
  | _, _ => Raise IndexError
  end.

(** [t.repeat((b, 1, 1))] on a tensor of at most three dimensions. *)
Definition repeat_batch (b : Z) (t : Tensor) : outcome Tensor :=
  let tiled := concat (repeat (data t) (Z.to_nat b)) in
  match shape t with
  | [] => Ok {| shape := [b; 1; 1]; data := tiled |}
  | [d2] => Ok {| shape := [b; 1; d2]; data := tiled |}
  | [d1; d2] => Ok {| shape := [b; d1; d2]; data := tiled |}
  | [d0; d1; d2] => Ok {| shape := [b * d0; d1; d2]; data := tiled |}
  | _ => Raise RuntimeError
  end.

(** [t.shape[-1]]. *)
Definition last_dim (t : Tensor) : outcome Z :=
  match rev (shape t) with
  | [] => Raise IndexError
  | d :: _ => Ok d
  end.

Section Denoising.
Context `{Denoiser}.

(** The pipeline object: torch's generator, the attribute
    [empty_text_embed], and the calls of the networks so far. *)
Record pipe : Type := {
  generator : G;
  empty_text_embed : option Tensor;
  calls : list net_call
}.

(** [__init__]: the embedding is not there yet. *)
Definition new_pipe (g : G) : pipe :=
  {| generator := g; empty_text_embed := None; calls := [] |}.

Definition _encode_empty_text (self : pipe) : outcome unit * pipe :=
  let embed := TensorOps.map (FVal.cast (precision pipeline_dtype)) text_encoder_empty_prompt in
  let self := {| generator := generator self;
                 empty_text_embed := Some embed;
                 calls := calls self ++ [CallTextEncoder] |} in
  match last_dim embed with
  | Ok d => if d =? 1024 then (Ok tt, self) else (Raise AssertionError, self)
  | Raise e => (Raise e, self)
  end.

(** The [for] loop over the timesteps. *)
Fixpoint denoising_loop (timesteps : list Z) (num_inference_steps : Z)
    (rgb_latent batch_empty_text_embed brdf_latent : Tensor) (self : pipe)
  : outcome Tensor * pipe :=
  match timesteps with
  | [] => (Ok brdf_latent, self)
  | t :: timesteps' =>
      (* this order is important *)
      match cat_dim1 brdf_latent rgb_latent with
      | Raise e => (Raise e, self)
      | Ok unet_input =>
          (* predict the noise residual *)
          let noise_pred := unet_sample unet_input t batch_empty_text_embed in
          let self := {| generator := generator self;
                         empty_text_embed := empty_text_embed self;
                         calls := calls self
                                  ++ [CallUNet unet_input t batch_empty_text_embed] |} in
          (* compute the previous noisy sample x_t -> x_t-1 *)
          let brdf_latent := scheduler_step num_inference_steps noise_pred t brdf_latent in
          denoising_loop timesteps' num_inference_steps rgb_latent batch_empty_text_embed
            brdf_latent self
      end
  end.

(** [single_infer] with its loop.  Reading [repeat] off an attribute that
    is still [None] cannot happen, the attribute has just been set. *)
Definition single_infer_steps (rgb_in : Tensor) (num_inference_steps : Z) (self : pipe)
  : outcome Tensor * pipe :=
  (* Set timesteps *)
  let timesteps := scheduler_timesteps num_inference_steps in
  (* Encode image *)
  match _encode_rgb rgb_in with
  | Raise e => (Raise e, self)
  | Ok rgb_latent =>
      (* Initial BRDF (noise) *)
      let brdf_latent_shape := shape rgb_latent in
      let (g, brdf_latent) := randn (generator self) brdf_latent_shape in
      let self := {| generator := g;
                     empty_text_embed := empty_text_embed self;
                     calls := calls self |} in
      (* Batched empty text embedding *)
      match (match empty_text_embed self with
             | None => _encode_empty_text self
             | Some _ => (Ok tt, self)
             end) with
      | (Raise e, self) => (Raise e, self)
      | (Ok _, self) =>
          match empty_text_embed self with
          | None => (Raise Exception, self)
          | Some embed =>
              match repeat_batch (TensorOps.shape_hd rgb_latent) embed with
              | Raise e => (Raise e, self)
              | Ok tiled =>
                  let batch_empty_text_embed :=
                    TensorOps.map (FVal.cast (precision pipeline_dtype)) tiled in
                  (* Denoising loop *)
                  match denoising_loop timesteps num_inference_steps rgb_latent
                          batch_empty_text_embed brdf_latent self with
                  | (Raise e, self) => (Raise e, self)
                  | (Ok brdf_latent, self) =>
                      match _decode_brdf brdf_latent with
                      | Raise e => (Raise e, self)
                      | Ok brdf =>
                          (* clip prediction *)
                          (Ok (TensorOps.map (FVal.clip (Q2Qc (-1)) (Q2Qc 1)) brdf), self)
                      end
                  end
              end
          end
      end
  end.

(** One call after the other on the same pipeline object, whatever each
    call returns or raises. *)
Fixpoint run_calls (inputs : list (Tensor * Z)) (self : pipe) : pipe :=
  match inputs with
  | [] => self
  | (rgb_in, num_inference_steps) :: inputs' =>
      run_calls inputs' (snd (single_infer_steps rgb_in num_inference_steps self))
  end.

(** The embedding that the pipeline keeps. *)
Definition kept_embedding : Tensor :=
  TensorOps.map (FVal.cast (precision pipeline_dtype)) text_encoder_empty_prompt.

End Denoising.

(* ================================================================== *)
(** ** Further reference definitions *)

(** Whether, of two entries of a table, the earlier one suggests at least
    the batch size of the later one whenever it asks for more memory. *)
Fixpoint vram_ordered (l : list settings) : bool :=
  match l with
  | [] => true
  | s :: l' =>
      forallb (fun s' => (total_vram s <=? total_vram s') || (bs s' <=? bs s)) l'
      && vram_ordered l'
  end.

(** A machine like [gpu_runtime] whose accelerator has [mem] bytes. *)
Definition gpu_with (mem : Z) : Runtime := {|
  G := unit;
  pipeline_dtype := float32;
  cuda_is_available := true;
  cuda_total_memory := mem;
  pil_resample := fun _ w h => repeat (x00, x00, x00)%byte (Z.to_nat (w * h));
  vae_beauty_encoder := fun t => t;
  vae_beauty_quant_conv := fun t => t;
  vae_albedo_post_quant_conv := fun t => t;
  vae_albedo_decoder := fun t => t;
  denoise := fun g t _ => (g, t);
  tv_resize_bicubic := fun _ t => t
|}.

(** [clip(y, 0, 1)] on a rational. *)
Definition clip_unit (y : Q) : Q :=
  if Qle_bool y 0 then 0%Q else if Qle_bool y 1 then y else 1%Q.

(** The sizes of the batches that a [DataLoader] without shuffling draws
    from [n] samples: full batches, then the remainder if there is one. *)
Definition batch_sizes (n bs : nat) : list nat :=
  repeat bs (n / bs) ++ (if (n mod bs =? 0)%nat then [] else [(n mod bs)%nat]).

(** The batch made of [k] copies of the normalised input. *)
Definition batch_of (rgb_norm : Tensor) (k : nat) : Tensor :=
  {| shape := Z.of_nat k :: shape rgb_norm; data := concat (repeat (data rgb_norm) k) |}.

(** The batch size a prediction works with: the one that is asked for, or
    the one that is found for the input. *)
Definition batch_size_used `{Runtime} (rgb_norm : Tensor) (ensemble_size batch_size : Z)
  : outcome Z :=
  if batch_size >? 0 then Ok batch_size
  else and_then (max_of (tl (shape rgb_norm)))
         (fun input_res => Ok (_find_batch_size ensemble_size input_res pipeline_dtype)).

(** An element that is a number: neither NaN nor an infinity. *)
Definition finite (v : fval) : bool :=
  match v with Fin _ => true | _ => false end.

(** An element that [torch.clip(x, -1, 1)] can return: a NaN, or a number
    in [-1, 1]. *)
Definition clipped (v : fval) : bool :=
  match v with NaN => true | _ => in_range v end.

(** An element that is a NaN or a number of absolute value at most [k]. *)
Definition bounded (k : nat) (v : fval) : Prop :=
  match v with
  | NaN => True
  | Inf _ => False
  | Fin q => (- inject_Z (Z.of_nat k) <= this q <= inject_Z (Z.of_nat k))%Q
  end.

Definition is_text_encoder (c : net_call) : bool :=
  match c with CallTextEncoder => true | CallUNet _ _ _ => false end.

(** How often the text encoder has run. *)
Definition text_encoder_runs (l : list net_call) : nat :=
  length (filter is_text_encoder l).

Definition timestep_of (c : net_call) : option Z :=
  match c with CallTextEncoder => None | CallUNet _ t _ => Some t end.

(** A U-Net call that is given the embedding [e] and, as input, some
    latent followed by the image latent. *)
Definition conditioned_on (rgb_latent e : Tensor) (c : net_call) : Prop :=
  match c with
  | CallTextEncoder => False
  | CallUNet unet_input _ encoder_hidden_states =>
      encoder_hidden_states = e /\
      exists brdf_latent, cat_dim1 brdf_latent rgb_latent = Ok unet_input
  end.

(** Networks for the sample machine: noise that is zero, an embedding of
    shape [1, 2, d], a scheduler with the timesteps [n-1 .. 0], a U-Net and
    a scheduler step that return the latent they are given. *)
Definition cpu_denoiser (d : Z) : @Denoiser cpu_runtime := {|
  randn := fun g sh => (g, {| shape := sh;
                              data := repeat (Fin (Q2Qc 0)) (Z.to_nat (TensorOps.numel sh)) |});
  text_encoder_empty_prompt :=
    {| shape := [1; 2; d]; data := repeat (Fin (Q2Qc 0)) (Z.to_nat (2 * d)) |};
  scheduler_timesteps := fun n => rev (map Z.of_nat (seq 0 (Z.to_nat n)));
  unet_sample := fun u _ _ => u;
  scheduler_step := fun _ _ _ x => x
|}.

(* ================================================================== *)
(** ** Properties of the rounding *)

Module FlFacts.
Import Fl.
Local Open Scope Q_scope.

Lemma pow2_pos e : 0 < pow2 e.
Proof. apply Qpower_0_lt. reflexivity. Qed.

Lemma pow2_add a b : pow2 (a + b) == pow2 a * pow2 b.
Proof. apply Qpower_plus. discriminate. Qed.

Lemma pow2_sub a b : pow2 (a - b) == pow2 a / pow2 b.
Proof. apply Qpower_minus. discriminate. Qed.

Lemma pow2_Z k : (0 <= k)%Z -> pow2 k == inject_Z (2 ^ k).
Proof. intros H. unfold pow2. now rewrite Zpower_Qpower. Qed.

Lemma pow2_le a b : (a <= b)%Z -> pow2 a <= pow2 b.
Proof. intros H. apply Qpower_le_compat_l; [exact H | discriminate]. Qed.

Lemma pow2_lt a b : (a < b)%Z -> pow2 a < pow2 b.
Proof. intros H. apply Qpower_lt_compat_l; [exact H | reflexivity]. Qed.

Lemma pow2_lt_inv a b : pow2 a < pow2 b -> (a < b)%Z.
Proof. intros H. apply (Qpower_lt_compat_l_inv (2 # 1)); [exact H | reflexivity]. Qed.

(** *** The binade *)

Lemma Qmake_pos n d : 0 < n # d -> (0 < n)%Z.
Proof. unfold Qlt; simpl. lia. Qed.

Lemma ilog2_spec x : 0 < x -> pow2 (ilog2 x) <= x /\ x < pow2 (ilog2 x + 1).
Proof.
  intros Hx. unfold ilog2.
  destruct x as [n d]. pose proof (Qmake_pos _ _ Hx) as Hn. cbn [Qnum Qden].
  set (a := Z.log2 n). set (b := Z.log2 (Zpos d)).
  assert (Ha : (2 ^ a <= n < 2 ^ (a + 1))%Z).
  { unfold a. pose proof (Z.log2_spec n Hn). now rewrite <- Z.add_1_r in H. }
  assert (Hb : (2 ^ b <= Zpos d < 2 ^ (b + 1))%Z).
  { unfold b. pose proof (Z.log2_spec (Zpos d) eq_refl). now rewrite <- Z.add_1_r in H. }
  assert (Ha0 : (0 <= a)%Z) by apply Z.log2_nonneg.
  assert (Hb0 : (0 <= b)%Z) by apply Z.log2_nonneg.
  assert (Hup : n # d < pow2 (a - b + 1)).
  { replace (a - b + 1)%Z with ((a + 1) - b)%Z by ring.
    rewrite pow2_sub, !pow2_Z by lia.
    apply Qlt_shift_div_l.
    - change 0 with (inject_Z 0). rewrite <- Zlt_Qlt. lia.
    - unfold Qlt, Qmult, inject_Z; simpl. nia. }
  assert (Hlo : pow2 (a - b - 1) <= n # d).
  { replace (a - b - 1)%Z with (a - (b + 1))%Z by ring.
    rewrite pow2_sub, !pow2_Z by lia.
    apply Qle_shift_div_r.
    - change 0 with (inject_Z 0). rewrite <- Zlt_Qlt. lia.
    - unfold Qle, Qmult, inject_Z; simpl. nia. }
  destruct (Qle_bool (pow2 (a - b)) (n # d)) eqn:E.
  - apply Qle_bool_iff in E. split; assumption.
  - split; [assumption|].
    replace (a - b - 1 + 1)%Z with (a - b)%Z by ring.
    apply Qnot_le_lt. intros H. apply Qle_bool_iff in H. congruence.
Qed.

Lemma ilog2_unique x k : pow2 k <= x -> x < pow2 (k + 1) -> ilog2 x = k.
Proof.
  intros H1 H2.
  assert (Hx : 0 < x) by (eapply Qlt_le_trans; [apply (pow2_pos k) | exact H1]).
  destruct (ilog2_spec x Hx) as [H3 H4].
  assert (ilog2 x < k + 1)%Z by (apply pow2_lt_inv; eapply Qle_lt_trans; eassumption).
  assert (k < ilog2 x + 1)%Z by (apply pow2_lt_inv; eapply Qle_lt_trans; eassumption).
  lia.
Qed.

Lemma ilog2_comp x y : 0 < x -> x == y -> ilog2 x = ilog2 y.
Proof.
  intros Hx E. symmetry. destruct (ilog2_spec x Hx).
  apply ilog2_unique; rewrite <- E; assumption.
Qed.

Lemma ilog2_mono x y : 0 < x -> x <= y -> (ilog2 x <= ilog2 y)%Z.
Proof.
  intros Hx Hxy.
  assert (Hy : 0 < y) by (eapply Qlt_le_trans; eassumption).
  destruct (ilog2_spec x Hx) as [H1 _]. destruct (ilog2_spec y Hy) as [_ H2].
  assert (ilog2 x < ilog2 y + 1)%Z; [|lia].
  apply pow2_lt_inv. eapply Qle_lt_trans; [exact H1|].
  eapply Qle_lt_trans; eassumption.
Qed.

(** *** Nearest integer *)

Lemma rne_cases q :
  (rne q = Qfloor q /\ q - inject_Z (Qfloor q) <= 1 # 2) \/
  (rne q = (Qfloor q + 1)%Z /\ 1 # 2 <= q - inject_Z (Qfloor q)).
Proof.
  unfold rne. destruct (Qcompare_spec (q - inject_Z (Qfloor q)) (1 # 2)) as [E|E|E].
  - destruct (Z.even (Qfloor q)); [left | right]; split; trivial; rewrite E; apply Qle_refl.
  - left. split; trivial. now apply Qlt_le_weak.
  - right. split; trivial. now apply Qlt_le_weak.
Qed.



Lemma rne_comp q r : q == r -> rne q = rne r.
Proof.
  intros E. unfold rne. rewrite (Qfloor_comp _ _ E).
  now rewrite E.
Qed.

Lemma rne_Z z : rne (inject_Z z) = z.
Proof.
  unfold rne. rewrite Qfloor_Z.
  destruct (Qcompare_spec (inject_Z z - inject_Z z) (1 # 2)) as [E|E|E]; trivial; lra.
Qed.

Lemma rne_mono q r : q <= r -> (rne q <= rne r)%Z.
Proof.
  intros H. pose proof (Qfloor_resp_le _ _ H) as Hf.
  destruct (Z.eq_dec (Qfloor q) (Qfloor r)) as [E|E].
  - unfold rne. rewrite E.
    destruct (Qcompare_spec (q - inject_Z (Qfloor r)) (1 # 2)) as [E1|E1|E1];
      destruct (Qcompare_spec (r - inject_Z (Qfloor r)) (1 # 2)) as [E2|E2|E2];
      try destruct (Z.even (Qfloor r)); try lia; exfalso; lra.
  - destruct (rne_cases q) as [[-> _]|[-> _]], (rne_cases r) as [[-> _]|[-> _]]; lia.
Qed.

(** *** Rounding a positive number *)

Section Precision.
Variable p : Z.
Hypothesis Hp : (1 <= p)%Z.

Let ulp_exp (x : Q) : Z := (ilog2 x - (p - 1))%Z.


Lemma scaled_lower x : 0 < x -> pow2 (p - 1) <= x / pow2 (ulp_exp x).
Proof.
  intros Hx. apply Qle_shift_div_l; [apply pow2_pos|].
  rewrite <- pow2_add. unfold ulp_exp.
  replace (p - 1 + (ilog2 x - (p - 1)))%Z with (ilog2 x) by ring.
  apply ilog2_spec, Hx.
Qed.

Lemma scaled_upper x : 0 < x -> x / pow2 (ulp_exp x) <= pow2 p.
Proof.
  intros Hx. apply Qle_shift_div_r; [apply pow2_pos|].
  rewrite <- pow2_add. unfold ulp_exp.
  replace (p + (ilog2 x - (p - 1)))%Z with (ilog2 x + 1)%Z by ring.
  apply Qlt_le_weak, ilog2_spec, Hx.
Qed.

Lemma round_pos_lower x : 0 < x -> pow2 (ilog2 x) <= round_pos p x.
Proof.
  intros Hx. unfold round_pos. fold (ulp_exp x).
  pose proof (scaled_lower x Hx) as H.
  pose proof (pow2_Z (p - 1) ltac:(lia)) as E.
  rewrite E in H. apply rne_mono in H. rewrite rne_Z in H.
  rewrite Zle_Qle in H. rewrite <- E in H.
  replace (ilog2 x) with (p - 1 + ulp_exp x)%Z at 1 by (unfold ulp_exp; ring).
  rewrite pow2_add. apply Qmult_le_compat_r; [exact H | apply Qlt_le_weak, pow2_pos].
Qed.

Lemma round_pos_upper x : 0 < x -> round_pos p x <= pow2 (ilog2 x + 1).
Proof.
  intros Hx. unfold round_pos. fold (ulp_exp x).
  pose proof (scaled_upper x Hx) as H.
  pose proof (pow2_Z p ltac:(lia)) as E.
  rewrite E in H. apply rne_mono in H. rewrite rne_Z in H.
  rewrite Zle_Qle in H. rewrite <- E in H.
  replace (ilog2 x + 1)%Z with (p + ulp_exp x)%Z by (unfold ulp_exp; ring).
  rewrite pow2_add. apply Qmult_le_compat_r; [exact H | apply Qlt_le_weak, pow2_pos].
Qed.

Lemma round_pos_comp x y : 0 < x -> x == y -> round_pos p x == round_pos p y.
Proof.
  intros Hx E. unfold round_pos. rewrite <- (ilog2_comp x y Hx E).
  assert (E' : x / pow2 (ilog2 x - (p - 1)) == y / pow2 (ilog2 x - (p - 1)))
    by (apply Qmult_comp; [exact E | reflexivity]).
  now rewrite (rne_comp _ _ E').
Qed.

Lemma round_pos_mono x y : 0 < x -> x <= y -> round_pos p x <= round_pos p y.
Proof.
  intros Hx Hxy.
  assert (Hy : 0 < y) by (eapply Qlt_le_trans; eassumption).
  pose proof (ilog2_mono x y Hx Hxy) as Hk.
  destruct (Z.eq_dec (ilog2 x) (ilog2 y)) as [E|E].
  - unfold round_pos. rewrite E.
    apply Qmult_le_compat_r; [|apply Qlt_le_weak, pow2_pos].
    rewrite <- Zle_Qle. apply rne_mono.
    apply Qmult_le_compat_r; [exact Hxy|].
    apply Qlt_le_weak, Qinv_lt_0_compat, pow2_pos.
  - eapply Qle_trans; [apply round_pos_upper, Hx|].
    eapply Qle_trans; [|apply round_pos_lower, Hy].
    apply pow2_le. lia.
Qed.




(** A number with a significand of at most [p] bits is not changed. *)
Lemma round_pos_fixed x z j :
  (0 < z < 2 ^ p)%Z -> x == inject_Z z * pow2 j -> round_pos p x == x.
Proof.
  intros Hz E. set (a := Z.log2 z).
  assert (Ha : (2 ^ a <= z < 2 ^ (a + 1))%Z).
  { unfold a. pose proof (Z.log2_spec z (proj1 Hz)) as H. now rewrite <- Z.add_1_r in H. }
  assert (Ha0 : (0 <= a)%Z) by apply Z.log2_nonneg.
  assert (Hap : (a < p)%Z) by (apply Z.log2_lt_pow2; lia).
  assert (Hj : 0 < pow2 j) by apply pow2_pos.
  assert (Hk : ilog2 x = (a + j)%Z).
  { apply ilog2_unique; rewrite E.
    - rewrite pow2_add, (pow2_Z a) by lia.
      apply Qmult_le_compat_r; [|lra]. rewrite <- Zle_Qle. lia.
    - replace (a + j + 1)%Z with ((a + 1) + j)%Z by ring.
      rewrite pow2_add, (pow2_Z (a + 1)) by lia.
      apply Qmult_lt_compat_r; [lra|]. rewrite <- Zlt_Qlt. lia. }
  unfold round_pos. rewrite Hk.
  set (e := (a + j - (p - 1))%Z).
  assert (Es : x / pow2 e == inject_Z (z * 2 ^ (p - 1 - a))).
  { rewrite E, inject_Z_mult, <- pow2_Z by lia.
    replace j with ((p - 1 - a) + e)%Z at 1 by (unfold e; ring).
    rewrite pow2_add. field. pose proof (pow2_pos e). lra. }
  rewrite (rne_comp _ _ Es), rne_Z, <- Es. field.
  pose proof (pow2_pos e). lra.
Qed.

(** *** Rounding any number *)

Lemma round_pos_case x : 0 < x -> round p x == round_pos p x.
Proof.
  intros Hx. unfold round. rewrite Qred_correct.
  destruct x as [[|n|n] d]; try reflexivity; discriminate Hx.
Qed.

Lemma round_neg_case x : x < 0 -> round p x == - round_pos p (- x).
Proof.
  intros Hx. unfold round. rewrite Qred_correct.
  destruct x as [[|n|n] d]; try reflexivity; discriminate Hx.
Qed.

Lemma round_zero x : x == 0 -> round p x == 0.
Proof.
  intros Hx. unfold round. rewrite Qred_correct.
  destruct x as [[|n|n] d]; try reflexivity; discriminate Hx.
Qed.

Lemma round_pos_pos x : 0 < x -> 0 < round_pos p x.
Proof.
  intros Hx. eapply Qlt_le_trans; [apply (pow2_pos (ilog2 x)) | now apply round_pos_lower].
Qed.

Lemma round_comp x y : x == y -> round p x = round p y.
Proof.
  intros E.
  assert (H : round p x == round p y).
  { destruct (Q_dec x 0) as [[H|H]|H].
    - rewrite !round_neg_case by (try rewrite <- E; exact H).
      apply Qopp_comp, round_pos_comp; [lra | now rewrite E].
    - rewrite !round_pos_case by (try rewrite <- E; exact H).
      now apply round_pos_comp.
    - rewrite !round_zero by (try rewrite <- E; exact H). reflexivity. }
  unfold round in *. rewrite !Qred_correct in H. apply Qred_complete, H.
Qed.

Lemma round_mono x y : x <= y -> round p x <= round p y.
Proof.
  intros Hxy.
  destruct (Q_dec x 0) as [[Hx|Hx]|Hx], (Q_dec y 0) as [[Hy|Hy]|Hy];
    try (exfalso; lra).
  - rewrite !round_neg_case by assumption.
    apply Qopp_le_compat, round_pos_mono; lra.
  - rewrite round_neg_case, round_pos_case by assumption.
    pose proof (round_pos_pos (- x)). pose proof (round_pos_pos y). lra.
  - rewrite round_neg_case, (round_zero y) by assumption.
    pose proof (round_pos_pos (- x)). lra.
  - rewrite !round_pos_case by assumption. now apply round_pos_mono.
  - rewrite (round_zero x), round_pos_case by assumption.
    pose proof (round_pos_pos y). lra.
  - rewrite !round_zero by assumption. lra.
Qed.

Lemma round_fixed z j :
  (Z.abs z < 2 ^ p)%Z -> round p (inject_Z z * pow2 j) == inject_Z z * pow2 j.
Proof.
  intros Hz. pose proof (pow2_pos j) as Hj.
  destruct (Z.lt_trichotomy z 0) as [H|[H|H]].
  - assert (Hn : inject_Z z * pow2 j < 0).
    { rewrite <- (Qmult_0_l (pow2 j)). apply Qmult_lt_compat_r; [lra|].
      change 0 with (inject_Z 0). now rewrite <- Zlt_Qlt. }
    rewrite round_neg_case by exact Hn.
    rewrite (round_pos_fixed _ (- z) j); [ring | lia |].
    rewrite inject_Z_opp. ring.
  - subst z. rewrite round_zero; ring.
  - assert (Hn : 0 < inject_Z z * pow2 j).
    { rewrite <- (Qmult_0_l (pow2 j)). apply Qmult_lt_compat_r; [lra|].
      change 0 with (inject_Z 0). now rewrite <- Zlt_Qlt. }
    rewrite round_pos_case by exact Hn.
    apply (round_pos_fixed _ z j); [lia | reflexivity].
Qed.

Lemma round_Z z : (Z.abs z < 2 ^ p)%Z -> round p (inject_Z z) == inject_Z z.
Proof.
  intros Hz. pose proof (round_fixed z 0 Hz) as H.
  change (pow2 0) with 1 in H.
  rewrite (round_comp (inject_Z z) (inject_Z z * 1)) by ring.
  rewrite H. ring.
Qed.



End Precision.

End FlFacts.

(* ================================================================== *)
(** ** Exact cases of the Python operations *)

Module PyFacts.
Import Fl FlFacts.
Local Open Scope Q_scope.

Lemma f64_Z z : (Z.abs z < 2 ^ 53)%Z -> f64 (inject_Z z) == inject_Z z.
Proof. intros H. apply round_Z; [lia | exact H]. Qed.

Lemma f64_mono x y : x <= y -> f64 x <= f64 y.
Proof. apply round_mono. lia. Qed.

(** Halving an integer below [2^53] is exact. *)
Lemma truediv_2_exact e : (Z.abs e < 2 ^ 53)%Z -> Py.truediv e 2 == inject_Z e / 2.
Proof.
  intros H. unfold Py.truediv, f64.
  rewrite (round_comp 53 _ (inject_Z e * pow2 (-1))).
  - rewrite round_fixed by (try lia; exact H). reflexivity.
  - reflexivity.
Qed.

Lemma f64_le_Z x z : (Z.abs z < 2 ^ 53)%Z -> x <= inject_Z z -> f64 x <= inject_Z z.
Proof.
  intros Hz Hx. eapply Qle_trans; [apply f64_mono, Hx|]. rewrite f64_Z by exact Hz. lra.
Qed.

Lemma f64_ge_Z x z : (Z.abs z < 2 ^ 53)%Z -> inject_Z z <= x -> inject_Z z <= f64 x.
Proof.
  intros Hz Hx. eapply Qle_trans; [|apply f64_mono, Hx]. rewrite f64_Z by exact Hz. lra.
Qed.


Lemma f64_pos x : 0 < x -> 0 < f64 x.
Proof.
  intros H. unfold f64. rewrite round_pos_case by exact H.
  apply round_pos_pos; [lia | exact H].
Qed.




Lemma Qfloor_le_Z x z : x < inject_Z z + 1 -> (Qfloor x <= z)%Z.
Proof.
  intros H. pose proof (Qfloor_le x) as H1.
  assert (H2 : inject_Z (Qfloor x) < inject_Z (z + 1)).
  { rewrite inject_Z_plus. change (inject_Z 1) with 1. lra. }
  rewrite <- Zlt_Qlt in H2. lia.
Qed.

Lemma Qfloor_ge_Z x z : inject_Z z <= x -> (z <= Qfloor x)%Z.
Proof.
  intros H. pose proof (Qlt_floor x) as H1.
  assert (H2 : inject_Z z < inject_Z (Qfloor x + 1)) by lra.
  rewrite <- Zlt_Qlt in H2. lia.
Qed.

Lemma py_int_floor x : 0 <= x -> Py.int x = Qfloor x.
Proof.
  intros H. unfold Py.int. apply Qle_bool_iff in H. now rewrite H.
Qed.






End PyFacts.

(* ================================================================== *)
(** ** The batch-size heuristic *)

Module BatchSize.
Import Fl FlFacts PyFacts.

Lemma clamp_bs_le ensemble_size bs0 : clamp_bs ensemble_size bs0 <= ensemble_size.
Proof.
  unfold clamp_bs.
  destruct (bs0 >? ensemble_size) eqn:E1; [lia|].
  destruct (bs0 >? Py.ceil (Py.truediv ensemble_size 2)) eqn:E2;
    destruct (bs0 <? ensemble_size) eqn:E3; cbn [andb]; lia.
Qed.

Lemma scan_table_le ensemble_size input_res vram l :
  1 <= ensemble_size -> scan_table ensemble_size input_res vram l <= ensemble_size.
Proof.
  intros He. induction l as [|s l IH]; cbn [scan_table].
  - exact He.
  - destruct (fits input_res vram s); [apply clamp_bs_le | exact IH].
Qed.

(** The loop returns the clamped batch size of the first entry that fits. *)
Lemma scan_table_find ensemble_size input_res vram l :
  scan_table ensemble_size input_res vram l =
  match find (fits input_res vram) l with
  | Some s => clamp_bs ensemble_size (bs s)
  | None => 1
  end.
Proof.
  induction l as [|s l IH]; cbn [scan_table find]; [reflexivity|].
  destruct (fits input_res vram s); [reflexivity | exact IH].
Qed.

Lemma table_bs_range dt :
  Forall (fun s => 2 <= bs s <= 40)
         (sorted (filter (fun s => DType_eqb (dtype s) dt) bs_search_table)).
Proof. destruct dt; vm_compute; repeat constructor; discriminate. Qed.

Lemma ceil_half_lower e : e <= 2 * ceil_half e.
Proof.
  pose proof (Qle_ceiling (inject_Z e / 2)) as H. fold (ceil_half e) in H.
  apply (Qmult_le_compat_r _ _ 2) in H; [|discriminate].
  assert (E : (inject_Z e / 2 * 2 == inject_Z e)%Q) by field.
  rewrite E in H. change 2%Q with (inject_Z 2) in H.
  rewrite <- inject_Z_mult, <- Zle_Qle in H. lia.
Qed.

(** [math.ceil(ensemble_size / 2)] is the exact half rounded up as long as
    the ensemble size is below [2^53]. *)
Lemma py_ceil_half e : Z.abs e < 2 ^ 53 -> Py.ceil (Py.truediv e 2) = ceil_half e.
Proof.
  intros H. unfold Py.ceil, ceil_half. apply Qceiling_comp, truediv_2_exact, H.
Qed.

(** C3: for every ensemble size of at least 1, every input resolution, every
    amount of device memory (with or without an accelerator) and every
    numeric format, the batch size returned by [_find_batch_size] is at most
    the ensemble size. *)
Theorem find_batch_size_le_ensemble `{Runtime} (ensemble_size input_res : Z) (dt : DType) :
  1 <= ensemble_size ->
  _find_batch_size ensemble_size input_res dt <= ensemble_size.
Proof.
  intros He. unfold _find_batch_size.
  destruct (negb cuda_is_available); [exact He | now apply scan_table_le].
Qed.

Lemma find_batch_size_le_ensemble_witness :
  1 <= 10 /\ @_find_batch_size gpu_runtime 10 512 float32 <= 10.
Proof.
  split; [lia | apply (@find_batch_size_le_ensemble gpu_runtime 10 512 float32); lia].
Defined.

(** C4: when the entry selected by [_find_batch_size] suggests a batch size
    strictly between half the ensemble size rounded up and the ensemble
    size, the result is exactly that half; when it suggests more than the
    ensemble size, the result is exactly the ensemble size. *)
Theorem find_batch_size_clamps `{Runtime} (ensemble_size input_res : Z) (dt : DType)
    (s : settings) :
  cuda_is_available = true ->
  selected_entry input_res dt = Some s ->
  (ceil_half ensemble_size < bs s < ensemble_size ->
   _find_batch_size ensemble_size input_res dt = ceil_half ensemble_size) /\
  (bs s > ensemble_size ->
   _find_batch_size ensemble_size input_res dt = ensemble_size).
Proof.
  intros Hcuda Hsel. unfold _find_batch_size, selected_entry in *.
  rewrite Hcuda. cbn [negb]. rewrite scan_table_find, Hsel.
  assert (Hbs : 2 <= bs s <= 40).
  { apply find_some in Hsel. destruct Hsel as [Hin _].
    exact (proj1 (Forall_forall _ _) (table_bs_range dt) s Hin). }
  unfold clamp_bs. split.
  - intros [Hlo Hhi].
    assert (He : Z.abs ensemble_size < 2 ^ 53).
    { pose proof (ceil_half_lower ensemble_size) as Hc.
      change (2 ^ 53) with 9007199254740992. lia. }
    rewrite (py_ceil_half _ He).
    destruct (bs s >? ensemble_size) eqn:E1; [lia|].
    destruct (bs s >? ceil_half ensemble_size) eqn:E2; [|lia].
    destruct (bs s <? ensemble_size) eqn:E3; [reflexivity | lia].
  - intros Hgt. destruct (bs s >? ensemble_size) eqn:E1; [reflexivity | lia].
Qed.

Lemma find_batch_size_clamps_witness :
  @cuda_is_available gpu_runtime = true /\
  @selected_entry gpu_runtime 512 float32
    = Some {| res := 512; total_vram := 23; bs := 20; dtype := float32 |} /\
  (ceil_half 30 < 20 < 30 -> @_find_batch_size gpu_runtime 30 512 float32 = ceil_half 30) /\
  (20 > 30 -> @_find_batch_size gpu_runtime 30 512 float32 = 30).
Proof.
  split; [reflexivity|]. split; [vm_compute; reflexivity|].
  apply (@find_batch_size_clamps gpu_runtime 30 512 float32
           {| res := 512; total_vram := 23; bs := 20; dtype := float32 |});
    [reflexivity | vm_compute; reflexivity].
Defined.

End BatchSize.

(* ================================================================== *)
(** ** The resolution normalizer *)

Module Resize.
Import Fl FlFacts PyFacts.
Local Open Scope Q_scope.

Section Dims.
Variables w h m : Z.
Hypothesis Hw : edge_ok w.
Hypothesis Hh : edge_ok h.
Hypothesis Hm : edge_ok m.

Let s := downscale_factor w h m.

Lemma edge_pos z : edge_ok z -> 0 < inject_Z z.
Proof. intros [Hz _]. change 0 with (inject_Z 0). now rewrite <- Zlt_Qlt. Qed.


Lemma edge_abs z : edge_ok z -> (Z.abs z < 2 ^ 53)%Z.
Proof. intros [Hz1 Hz2]. change (2 ^ 53)%Z with (2 * 2 ^ 52)%Z. lia. Qed.




Lemma mul_int_float_exact z x : edge_ok z -> Py.mul_int_float z x = f64 (inject_Z z * x).
Proof.
  intros Hz. unfold Py.mul_int_float, f64. apply round_comp.
  fold f64. rewrite (f64_Z z) by (now apply edge_abs). reflexivity.
Qed.










End Dims.







End Resize.

(* ================================================================== *)
(** ** Order on array elements *)

Module FValFacts.

Ltac qbool :=
  repeat match goal with
         | H : Qle_bool _ _ = true |- _ => apply Qle_bool_iff in H
         | H : Qle_bool _ _ = false |- _ =>
             apply not_true_iff_false in H; rewrite Qle_bool_iff in H;
             apply Qnot_le_lt in H
         | |- Qle_bool _ _ = true => apply Qle_bool_iff
         | |- Qle_bool _ _ = false =>
             apply not_true_iff_false; rewrite Qle_bool_iff; apply Qlt_not_le
         end.





End FValFacts.

(* ================================================================== *)
(** ** The orchestrator: validation and preprocessing *)

Module CallFacts.
Import Fl FlFacts PyFacts FValFacts.

Section WithRuntime.
Context `{Runtime}.
Local Open Scope pipeline_scope.

Lemma bind_assert_true {B} (f : unit -> M B) w : bind (assert_ true) f w = f tt w.
Proof. reflexivity. Qed.

Lemma bind_assert_false {B} (f : unit -> M B) w :
  bind (assert_ false) f w = (Raise AssertionError, w).
Proof. reflexivity. Qed.

Lemma args_valid_iff denoising_steps ensemble_size processing_res :
  (processing_res >=? 0) && (denoising_steps >=? 1) && (ensemble_size >=? 1) = true
  <-> 0 <= processing_res /\ 1 <= denoising_steps /\ 1 <= ensemble_size.
Proof. rewrite !andb_true_iff, !Z.geb_leb, !Z.leb_le. tauto. Qed.

(** An argument out of range stops the call at once. *)
Lemma preprocess_invalid_args input_image denoising_steps ensemble_size processing_res w :
  processing_res < 0 \/ denoising_steps < 1 \/ ensemble_size < 1 ->
  preprocess input_image denoising_steps ensemble_size processing_res w
  = (Raise AssertionError, w).
Proof.
  intros Hbad. unfold preprocess.
  destruct (processing_res >=? 0) eqn:E1; [|reflexivity].
  rewrite bind_assert_true.
  destruct (denoising_steps >=? 1) eqn:E2; [|reflexivity].
  rewrite bind_assert_true.
  destruct (ensemble_size >=? 1) eqn:E3; [|reflexivity].
  rewrite Z.geb_leb, Z.leb_le in E1, E2, E3. lia.
Qed.

Lemma preprocess_valid_args input_image denoising_steps ensemble_size processing_res w :
  0 <= processing_res -> 1 <= denoising_steps -> 1 <= ensemble_size ->
  preprocess input_image denoising_steps ensemble_size processing_res w
  = (rgb_norm <-
       match input_image with
       | InImage img =>
           img' <- (if processing_res >? 0
                    then emit (EvResize img processing_res) ;;
                         lift (resize_max_res img processing_res)
                    else ret img) ;;
           ret (image_to_tensor img')
       | InTensor t =>
           let rgb_norm := TensorOps.squeeze0 t in
           assert_ (TensorOps.ndim rgb_norm =? 3) ;;
           ret rgb_norm
       end ;;
     assert_unit_range rgb_norm ;;
     ret rgb_norm) w.
Proof.
  intros H1 H2 H3. unfold preprocess.
  apply Z.leb_le in H1, H2, H3. rewrite <- Z.geb_leb in H1, H2, H3.
  now rewrite H1, H2, H3.
Qed.

Lemma squeeze0_data t : data (TensorOps.squeeze0 t) = data t.
Proof.
  unfold TensorOps.squeeze0. destruct (shape t) as [|d sh]; [reflexivity|].
  destruct d as [|[p|p|]|]; reflexivity.
Qed.

(** The range assertion leaves the world as it is. *)
Lemma assert_unit_range_quiet rgb_norm w : snd (assert_unit_range rgb_norm w) = w.
Proof.
  unfold assert_unit_range, bind, lift.
  destruct (TensorOps.min rgb_norm) as [lo|e]; [|reflexivity].
  destruct (FVal.leb (Fin (Q2Qc (-1))) lo); [|reflexivity].
  destruct (TensorOps.max rgb_norm) as [hi|e]; [|reflexivity].
  destruct (FVal.leb hi (Fin (Q2Qc 1))); reflexivity.
Qed.





(** *** An image input *)

Lemma byte_range b : 0 <= Z.of_N (Byte.to_N b) <= 255.
Proof. pose proof (Byte.to_N_bounded b). lia. Qed.

Lemma normalize_byte_range b : (-1 <= normalize_byte b <= 1)%Q.
Proof.
  unfold normalize_byte, Py.truediv.
  pose proof (byte_range b) as [Hb0 Hb1]. set (n := Z.of_N (Byte.to_N b)) in *.
  assert (H0 : (0 <= inject_Z n / inject_Z 255 <= 1)%Q).
  { rewrite Zle_Qle in Hb0, Hb1.
    change (inject_Z 0) with 0%Q in Hb0. change (inject_Z 255) with 255%Q in *.
    split.
    - apply Qle_shift_div_l; [reflexivity | lra].
    - apply Qle_shift_div_r; [reflexivity | lra]. }
  set (q := (inject_Z n / inject_Z 255)%Q) in *. clearbody q.
  assert (B0 : Z.abs 0 < 2 ^ 53) by (vm_compute; reflexivity).
  assert (B1 : Z.abs 1 < 2 ^ 53) by (vm_compute; reflexivity).
  assert (B2 : Z.abs 2 < 2 ^ 53) by (vm_compute; reflexivity).
  assert (B3 : Z.abs (-1) < 2 ^ 53) by (vm_compute; reflexivity).
  assert (H1 : (0 <= f64 q <= 1)%Q).
  { split; [apply (f64_ge_Z _ 0 B0) | apply (f64_le_Z _ 1 B1)]; apply H0. }
  assert (H2 : (0 <= f64 (f64 q * 2) <= 2)%Q).
  { split; [apply (f64_ge_Z _ 0 B0); change (inject_Z 0) with 0%Q
           | apply (f64_le_Z _ 2 B2); change (inject_Z 2) with 2%Q]; lra. }
  split; [apply (f64_ge_Z _ (-1) B3); change (inject_Z (-1)) with (-1)%Q
         | apply (f64_le_Z _ 1 B1); change (inject_Z 1) with 1%Q]; lra.
Qed.

Lemma precision_pos d : 1 <= precision d.
Proof. destruct d; cbn; lia. Qed.

Lemma cast_in_range d x :
  (-1 <= x <= 1)%Q -> in_range (FVal.cast (precision d) (Fin (Q2Qc x))) = true.
Proof.
  intros [H0 H1]. pose proof (precision_pos d) as Hp.
  assert (Hq : (Qred x == x)%Q) by apply Qred_correct.
  assert (Hr : (-1 <= round (precision d) (Qred x) <= 1)%Q).
  { split.
    - rewrite <- (round_Z (precision d) Hp (-1)).
      + apply round_mono; [exact Hp|]. change (inject_Z (-1)) with (-1)%Q. lra.
      + change (Z.abs (-1)) with (2 ^ 0). apply Z.pow_lt_mono_r; lia.
    - rewrite <- (round_Z (precision d) Hp 1).
      + apply round_mono; [exact Hp|]. change (inject_Z 1) with 1%Q. lra.
      + change (Z.abs 1) with (2 ^ 0). apply Z.pow_lt_mono_r; lia. }
  unfold in_range, FVal.cast, FVal.leb. cbn [Q2Qc this].
  apply andb_true_iff.
  split; apply Qle_bool_iff; rewrite (Qred_correct (round (precision d) (Qred x)));
    [change (Qred (-1)) with (-1)%Q | change (Qred 1) with 1%Q]; apply Hr.
Qed.

Lemma image_tensor_in_range img :
  forallb in_range (data (image_to_tensor img)) = true.
Proof.
  unfold image_to_tensor. cbn [data].
  rewrite !forallb_app. rewrite !andb_true_iff.
  repeat split; apply forallb_forall; intros v Hv; apply in_map_iff in Hv;
    destruct Hv as [px [<- _]]; apply cast_in_range, normalize_byte_range.
Qed.



(** *** What a run adds to the log *)

Lemma appends_ret {A} P (a : A) : appends P (ret a).
Proof. intros w. exists []. now rewrite app_nil_r. Qed.

Lemma appends_raise {A} P e : appends P (@raise _ A e).
Proof. intros w. exists []. now rewrite app_nil_r. Qed.

Lemma appends_lift {A} P (o : outcome A) : appends P (lift o).
Proof. intros w. exists []. now rewrite app_nil_r. Qed.

Lemma appends_assert P b : appends P (assert_ b).
Proof. destruct b; [apply appends_ret | apply appends_raise]. Qed.

Lemma appends_emit (P : event -> Prop) e : P e -> appends P (emit e).
Proof. intros He w. exists [e]. split; [reflexivity | now constructor]. Qed.

Lemma appends_run_denoise P t n : appends P (run_denoise t n).
Proof.
  intros w. exists []. unfold run_denoise.
  destruct (denoise (rng w) t n). cbn. now rewrite app_nil_r.
Qed.

Lemma appends_bind {A B} P (m : M A) (f : A -> M B) :
  appends P m -> (forall a, appends P (f a)) -> appends P (bind m f).
Proof.
  intros Hm Hf w. unfold bind. destruct (Hm w) as [l1 [E1 F1]].
  destruct (m w) as [[a|e] w1]; cbn [snd] in E1.
  - destruct (Hf a w1) as [l2 [E2 F2]]. exists (l1 ++ l2).
    rewrite E2, E1, app_assoc. split; [reflexivity | now apply Forall_app].
  - exists l1. now split.
Qed.

Lemma appends_single_infer rgb_in n : appends is_infer (single_infer rgb_in n).
Proof.
  unfold single_infer.
  apply appends_bind; [apply appends_emit; exact I | intros _].
  apply appends_bind; [apply appends_lift | intros rgb_latent].
  apply appends_bind; [apply appends_run_denoise | intros brdf_latent].
  apply appends_bind; [apply appends_lift | intros brdf].
  apply appends_ret.
Qed.

Lemma appends_infer_batches bl n : appends is_infer (infer_batches bl n).
Proof.
  induction bl as [|b bl IH]; cbn [infer_batches].
  - apply appends_ret.
  - apply appends_bind; [apply appends_single_infer | intros p].
    apply appends_bind; [exact IH | intros ps]. apply appends_ret.
Qed.

Lemma appends_predict rgb_norm denoising_steps ensemble_size batch_size :
  appends is_infer (predict rgb_norm denoising_steps ensemble_size batch_size).
Proof.
  unfold predict.
  apply appends_bind; [apply appends_lift | intros _].
  apply appends_bind.
  { destruct (batch_size >? 0); [apply appends_ret|].
    apply appends_bind; [apply appends_lift | intros r; apply appends_ret]. }
  intros _bs.
  apply appends_bind; [apply appends_lift | intros loader].
  apply appends_bind; [apply appends_infer_batches | intros preds].
  apply appends_bind; [apply appends_lift | intros cat]. apply appends_ret.
Qed.

(** After the preprocessing, a call adds only predictions to the log. *)
Lemma call_log input_image denoising_steps ensemble_size processing_res
    match_input_res batch_size w :
  exists l,
    log (snd (__call__ input_image denoising_steps ensemble_size processing_res
                match_input_res batch_size w))
    = log (snd (preprocess input_image denoising_steps ensemble_size processing_res w)) ++ l
    /\ Forall is_infer l.
Proof.
  unfold __call__. unfold bind at 1.
  destruct (preprocess input_image denoising_steps ensemble_size processing_res w)
    as [[rgb_norm|e] w1]; cbn [snd].
  - assert (Ha : appends is_infer
             (brdf_preds <- predict rgb_norm denoising_steps ensemble_size batch_size ;;
              albedo_pred <- lift (postprocess (size_of input_image) brdf_preds
                                     ensemble_size match_input_res) ;;
              (let uncert_pred := None in
               let (albedo_pred0, albedo_color) := Colorize.colorize albedo_pred in
               ret {| albedo_np := albedo_pred0; albedo_pil := albedo_color;
                      uncertainty := uncert_pred |}))).
    { apply appends_bind; [apply appends_predict | intros preds].
      apply appends_bind; [apply appends_lift | intros albedo].
      cbv zeta. destruct (Colorize.colorize albedo). apply appends_ret. }
    exact (Ha w1).
  - exists []. now rewrite app_nil_r.
Qed.

(** A call that stops in the preprocessing stops as the preprocessing does. *)
Lemma call_raise input_image denoising_steps ensemble_size processing_res
    match_input_res batch_size w e w1 :
  preprocess input_image denoising_steps ensemble_size processing_res w = (Raise e, w1) ->
  __call__ input_image denoising_steps ensemble_size processing_res
    match_input_res batch_size w = (Raise e, w1).
Proof. intros E. unfold __call__. unfold bind at 1. now rewrite E. Qed.

(** What the preprocessing adds to the log: the resizing of an image, when
    one is asked for and the arguments are valid. *)
Lemma preprocess_log input_image denoising_steps ensemble_size processing_res w :
  log (snd (preprocess input_image denoising_steps ensemble_size processing_res w))
  = log w ++
    match input_image with
    | InImage img =>
        if (processing_res >=? 0) && (denoising_steps >=? 1) && (ensemble_size >=? 1)
        then resize_events img processing_res else []
    | InTensor _ => []
    end.
Proof.
  assert (Hq : forall rgb w0, snd ((assert_unit_range rgb ;; ret rgb) w0) = w0).
  { intros rgb w0. unfold bind. pose proof (assert_unit_range_quiet rgb w0) as Hq.
    destruct (assert_unit_range rgb w0) as [[u|e] w']; exact Hq. }
  destruct ((processing_res >=? 0) && (denoising_steps >=? 1) && (ensemble_size >=? 1))
    eqn:Hargs.
  - apply args_valid_iff in Hargs. destruct Hargs as [H1 [H2 H3]].
    rewrite preprocess_valid_args by assumption.
    destruct input_image as [img|t].
    + unfold resize_events. unfold bind at 1. unfold bind at 1.
      destruct (processing_res >? 0).
      * unfold bind at 1. cbn [emit lift].
        destruct (resize_max_res img processing_res) as [img'|e]; [|reflexivity].
        cbn [ret]. now rewrite Hq.
      * cbn [ret]. rewrite Hq. now rewrite app_nil_r.
    + cbv zeta. unfold bind at 1. unfold bind at 1. rewrite app_nil_r.
      destruct (TensorOps.ndim (TensorOps.squeeze0 t) =? 3); cbn [assert_ ret raise];
        [now rewrite Hq | reflexivity].
  - assert (Hbad : processing_res < 0 \/ denoising_steps < 1 \/ ensemble_size < 1).
    { apply not_true_iff_false in Hargs. rewrite args_valid_iff in Hargs. lia. }
    rewrite preprocess_invalid_args by exact Hbad.
    cbn [snd]. destruct input_image; now rewrite app_nil_r.
Qed.

(** *** The prediction is reached *)




Lemma py_ceil_half_pos e : 1 <= e -> 1 <= Py.ceil (Py.truediv e 2).
Proof.
  intros He. unfold Py.ceil, Py.truediv.
  assert (Hq : (0 < inject_Z e / inject_Z 2)%Q).
  { apply Qlt_shift_div_l; [reflexivity|]. rewrite Qmult_0_l.
    change 0%Q with (inject_Z 0). rewrite <- Zlt_Qlt. lia. }
  pose proof (f64_pos _ Hq) as Hp.
  pose proof (Qle_ceiling (f64 (inject_Z e / inject_Z 2))) as Hc.
  assert (H0 : (inject_Z 0 < inject_Z (Qceiling (f64 (inject_Z e / inject_Z 2))))%Q).
  { change (inject_Z 0) with 0%Q. eapply Qlt_le_trans; eassumption. }
  rewrite <- Zlt_Qlt in H0. lia.
Qed.

Lemma clamp_bs_pos e b : 1 <= e -> 1 <= b -> 1 <= clamp_bs e b.
Proof.
  intros He Hb. unfold clamp_bs. pose proof (py_ceil_half_pos e He).
  destruct (b >? e); [exact He|].
  destruct ((b >? Py.ceil (Py.truediv e 2)) && (b <? e)); assumption.
Qed.

Lemma find_batch_size_pos ensemble_size input_res dt :
  1 <= ensemble_size -> 1 <= _find_batch_size ensemble_size input_res dt.
Proof.
  intros He. unfold _find_batch_size.
  destruct (negb cuda_is_available); [lia|].
  rewrite BatchSize.scan_table_find.
  destruct (find _ _) as [s|] eqn:E; [|apply Z.le_refl].
  apply find_some in E. destruct E as [Hin _].
  pose proof (proj1 (Forall_forall _ _) (BatchSize.table_bs_range dt) s Hin) as Hs.
  cbv beta in Hs. apply clamp_bs_pos; lia.
Qed.


Lemma call_after_preprocess input_image denoising_steps ensemble_size processing_res
    match_input_res batch_size w rgb_norm w1 :
  preprocess input_image denoising_steps ensemble_size processing_res w = (Ok rgb_norm, w1) ->
  snd (__call__ input_image denoising_steps ensemble_size processing_res
         match_input_res batch_size w)
  = snd (predict rgb_norm denoising_steps ensemble_size batch_size w1).
Proof.
  intros E. unfold __call__. unfold bind at 1. rewrite E. unfold bind at 1.
  destruct (predict rgb_norm denoising_steps ensemble_size batch_size w1)
    as [[preds|e] w2]; [|reflexivity].
  unfold bind, lift. cbn [snd].
  destruct (postprocess (size_of input_image) preds ensemble_size match_input_res);
    [|reflexivity].
  cbv zeta. destruct (Colorize.colorize a). reflexivity.
Qed.

End WithRuntime.



(** C5, as the code has it: when a nonzero processing resolution is asked
    for and the input is an image, either the call stops before anything is
    done, or the first thing it does is to resize that image to that
    resolution, and everything after is prediction.  When the input is a
    tensor, the call never resizes: all it does is prediction. *)
Theorem resize_precedes_prediction `{Runtime} (input_image : Input)
    (denoising_steps ensemble_size processing_res : Z) (match_input_res : bool)
    (batch_size : Z) (w : world) :
  processing_res <> 0 ->
  let final := snd (__call__ input_image denoising_steps ensemble_size processing_res
                      match_input_res batch_size w) in
  match input_image with
  | InImage img =>
      log final = log w \/
      exists rest, log final = log w ++ EvResize img processing_res :: rest
                   /\ Forall is_infer rest
  | InTensor _ =>
      exists rest, log final = log w ++ rest /\ Forall is_infer rest
  end.
Proof.
  intros Hp. cbv zeta.
  destruct (call_log input_image denoising_steps ensemble_size processing_res
              match_input_res batch_size w) as [l [El Fl]].
  rewrite preprocess_log in El.
  destruct input_image as [img|t].
  - destruct ((processing_res >=? 0) && (denoising_steps >=? 1) && (ensemble_size >=? 1))
      eqn:Hargs.
    + right. apply args_valid_iff in Hargs. unfold resize_events in El.
      assert (E : (processing_res >? 0) = true)
        by (rewrite Z.gtb_ltb; apply Z.ltb_lt; lia).
      rewrite E in El. exists l. rewrite <- app_assoc in El. now split.
    + left. apply not_true_iff_false in Hargs. rewrite args_valid_iff in Hargs.
      rewrite (call_raise _ _ _ _ _ _ w AssertionError w); [reflexivity|].
      apply preprocess_invalid_args. lia.
  - exists l. rewrite app_nil_r in El. now split.
Qed.

Lemma resize_precedes_prediction_witness :
  2 <> 0 /\
  let final := snd (@__call__ cpu_runtime (InImage (grey_image 4 2)) 1 1 2 false 1
                      fresh_world) in
  (log final = log fresh_world \/
   exists rest, log final = log fresh_world ++ EvResize (grey_image 4 2) 2 :: rest
                /\ Forall is_infer rest).
Proof.
  split; [discriminate|].
  apply (@resize_precedes_prediction cpu_runtime (InImage (grey_image 4 2))
           1 1 2 false 1 fresh_world).
  discriminate.
Defined.

(** C5 fails as it is stated: a call on a tensor with processing resolution
    512 runs its prediction and returns, and never resizes. *)
Lemma tensor_input_not_resized :
  let run := @__call__ cpu_runtime (InTensor zeros_1322) 1 1 512 false 1 fresh_world in
  succeeded (fst run) = true /\
  inferred (log (snd run)) = true /\
  resized (log (snd run)) = false.
Proof. vm_compute. repeat split. Qed.




(** The rounding shows: 49 times the float nearest to 512/49 is just below
    512, so a 49 x 49 image with target 512 comes out as 511 x 511. *)
Example resize_dims_49 : resize_dims 49 49 512 = (511, 511).
Proof. vm_compute. reflexivity. Qed.

End CallFacts.

(* ================================================================== *)
(** ** Rendering *)

Module ColorizeFacts.
Import Colorize.

(** The rendered image holds, element by element, the rendered values. *)
Lemma colorize_bytes albedo_pred :
  bi_bytes (snd (colorize albedo_pred)) = map colorize_value (data albedo_pred).
Proof. unfold colorize, colorize_value. cbn. now rewrite !map_map. Qed.

Lemma colorize_array albedo_pred :
  data (fst (colorize albedo_pred)) = map (nan_to_num (Q2Qc 0)) (data albedo_pred).
Proof. reflexivity. Qed.

(** The image a call returns is the rendering of the array it returns. *)
Lemma call_renders `{Runtime} input_image denoising_steps ensemble_size processing_res
    match_input_res batch_size w out w' :
  __call__ input_image denoising_steps ensemble_size processing_res
    match_input_res batch_size w = (Ok out, w') ->
  exists albedo_pred,
    data (albedo_np out) = map (nan_to_num (Q2Qc 0)) (data albedo_pred) /\
    bi_bytes (albedo_pil out) = map colorize_value (data albedo_pred).
Proof.
  unfold __call__, bind.
  destruct (preprocess _ _ _ _ w) as [[rgb_norm|e] w1]; [|discriminate].
  destruct (predict _ _ _ _ w1) as [[brdf_preds|e] w2]; [|discriminate].
  unfold lift.
  destruct (postprocess _ brdf_preds _ _) as [albedo_pred|e]; [|discriminate].
  cbv zeta. pose proof (colorize_bytes albedo_pred) as Hb.
  pose proof (colorize_array albedo_pred) as Ha.
  destruct (colorize albedo_pred) as [a c]. unfold ret. intros E.
  injection E as <- _. exists albedo_pred. now split.
Qed.

(** The ends and the middle of the range are rendered as the affine map
    says. *)
Example colorize_ends :
  colorize_value (Fin (Q2Qc (-1))) = 0 /\
  colorize_value (Fin (Q2Qc 0)) = 127 /\
  colorize_value (Fin (Q2Qc 1)) = 255.
Proof. vm_compute. repeat split. Qed.

(** The sum with one half, as a rational. *)
Lemma add_half_value v :
  exists y, add_half (Fin v) = Fin y /\
            (this y == Fl.round 24 (Qred (this v + (1 # 2))))%Q.
Proof.
  eexists. split; [reflexivity|]. cbn [this Q2Qc]. apply Qred_correct.
Qed.

Lemma clip_high y :
  (1 <= this y)%Q -> FVal.clip (Q2Qc 0) (Q2Qc 1) (Fin y) = Fin (Q2Qc 1).
Proof.
  intros Hy. unfold FVal.clip, FVal.max, FVal.leb.
  assert (E0 : Qle_bool y (Q2Qc 0) = false).
  { apply not_true_iff_false. rewrite Qle_bool_iff.
    change (this (Q2Qc 0)) with 0%Q. lra. }
  rewrite E0. unfold FVal.min, FVal.leb.
  destruct (Qle_bool y (Q2Qc 1)) eqn:E1; [|reflexivity].
  f_equal. apply Qc_is_canon. apply Qle_bool_iff in E1.
  change (this (Q2Qc 1)) with 1%Q in *. lra.
Qed.

Lemma clip_low y :
  (this y <= 0)%Q -> FVal.clip (Q2Qc 0) (Q2Qc 1) (Fin y) = Fin (Q2Qc 0).
Proof.
  intros Hy. unfold FVal.clip, FVal.max, FVal.leb.
  assert (E0 : Qle_bool y (Q2Qc 0) = true).
  { apply Qle_bool_iff. change (this (Q2Qc 0)) with 0%Q. exact Hy. }
  rewrite E0. reflexivity.
Qed.

(** What the missing parentheses do to the upper and the lower quarter of
    the range: every value from 1/2 up is rendered as 255, every value
    down from -1/2 as 0. *)
Lemma colorize_saturates_high v : (1 # 2 <= this v)%Q -> colorize_value (Fin v) = 255.
Proof.
  intros Hv. unfold colorize_value. cbn [nan_to_num].
  destruct (add_half_value v) as [y [-> Hy]].
  rewrite clip_high; [vm_compute; reflexivity|].
  rewrite Hy. rewrite <- (FlFacts.round_Z 24 ltac:(lia) 1) by (vm_compute; reflexivity).
  apply FlFacts.round_mono; [lia|]. rewrite Qred_correct.
  change (inject_Z 1) with 1%Q. lra.
Qed.

Lemma colorize_saturates_low v : (this v <= - 1 # 2)%Q -> colorize_value (Fin v) = 0.
Proof.
  intros Hv. unfold colorize_value. cbn [nan_to_num].
  destruct (add_half_value v) as [y [-> Hy]].
  rewrite clip_low; [vm_compute; reflexivity|].
  rewrite Hy. rewrite <- (FlFacts.round_Z 24 ltac:(lia) 0) by (vm_compute; reflexivity).
  apply FlFacts.round_mono; [lia|]. rewrite Qred_correct.
  change (inject_Z 0) with 0%Q. lra.
Qed.

(** C1 fails on the code: the value 1/2 lies in [-1, 1] and the affine map
    sends it to 191.25, but it is rendered as 255.  The code adds one half
    where the affine map adds one and halves, so every value from 1/2 up is
    clipped to 255 and every value down from -1/2 to 0. *)
Theorem colorize_half_is_255 :
  colorize_value (Fin (Q2Qc (1 # 2))) = 255 /\
  (affine_remap (1 # 2) == 765 # 4)%Q /\
  Qfloor (affine_remap (1 # 2)) = 191 /\
  colorize_value (Fin (Q2Qc (- 1 # 2))) = 0 /\
  Qfloor (affine_remap (- 1 # 2)) = 63.
Proof. vm_compute. repeat split. Qed.

(** C2 fails as it is stated: a NaN is rendered as 127. *)
Lemma nan_renders_as_127 :
  let albedo_pred :=
    {| shape := [1; 1; 3]; data := [NaN; Fin (Q2Qc 0); Fin (Q2Qc 0)] |} in
  nth_error (data albedo_pred) 0 = Some NaN /\
  nth_error (bi_bytes (snd (colorize albedo_pred))) 0 = Some 127.
Proof. vm_compute. split; reflexivity. Qed.

(** C2, as the code has it: where the prediction holds a NaN, the array
    that is returned holds the number zero, and the image holds the byte
    that zero is rendered as, which is 127. *)
Theorem nan_replaced_by_zero (albedo_pred : Tensor) (i : nat) :
  nth_error (data albedo_pred) i = Some NaN ->
  nth_error (data (fst (colorize albedo_pred))) i = Some (Fin (Q2Qc 0)) /\
  nth_error (bi_bytes (snd (colorize albedo_pred))) i
    = Some (colorize_value (Fin (Q2Qc 0))) /\
  colorize_value (Fin (Q2Qc 0)) = 127.
Proof.
  intros Hi. rewrite colorize_array, colorize_bytes, !nth_error_map, Hi.
  repeat split.
Qed.

Lemma nan_replaced_by_zero_witness :
  let albedo_pred :=
    {| shape := [1; 1; 3]; data := [Fin (Q2Qc 1); NaN; Fin (Q2Qc 0)] |} in
  nth_error (data albedo_pred) 1 = Some NaN /\
  nth_error (data (fst (colorize albedo_pred))) 1 = Some (Fin (Q2Qc 0)) /\
  nth_error (bi_bytes (snd (colorize albedo_pred))) 1 = Some 127.
Proof.
  cbv zeta. split; [reflexivity|].
  destruct (nan_replaced_by_zero
              {| shape := [1; 1; 3]; data := [Fin (Q2Qc 1); NaN; Fin (Q2Qc 0)] |} 1
              eq_refl) as [H1 [H2 H3]].
  split; [exact H1|]. rewrite H2, H3. reflexivity.
Defined.

End ColorizeFacts.

(* ================================================================== *)
(** ** The latent scale factor *)

Module ScaleFacts.
Local Open Scope Qc_scope.








End ScaleFacts.

(* ================================================================== *)
(** ** Ensembling *)

Module EnsembleFacts.
Local Open Scope nat_scope.

Lemma firstn_app_exact {A} (d r : list A) : firstn (length d) (d ++ r) = d.
Proof. induction d as [|a d IH]; cbn; [now destruct r | now rewrite IH]. Qed.

Lemma skipn_app_exact {A} (d r : list A) : skipn (length d) (d ++ r) = r.
Proof. induction d as [|a d IH]; cbn; [reflexivity | exact IH]. Qed.

(** Cutting a concatenation of rows of [k] elements gives the rows back. *)
Lemma pieces_fuel_concat {A} k (ds : list (list A)) fuel :
  1 <= k -> Forall (fun d => length d = k) ds -> length ds <= fuel ->
  TensorOps.pieces_fuel fuel k (concat ds) = ds.
Proof.
  intros Hk Hall. revert fuel. induction Hall as [|d ds Hd Hds IH]; intros fuel Hf.
  - cbn. now destruct fuel.
  - cbn [concat]. destruct fuel as [|fuel]; [cbn in Hf; lia|].
    destruct d as [|a d]; [cbn in Hd; lia|].
    assert (E1 : firstn k ((a :: d) ++ concat ds) = a :: d)
      by (rewrite <- Hd; apply firstn_app_exact).
    assert (E2 : skipn k ((a :: d) ++ concat ds) = concat ds)
      by (rewrite <- Hd; apply skipn_app_exact).
    cbn [TensorOps.pieces_fuel app] in *. rewrite E1, E2. f_equal. apply IH. cbn in Hf. lia.
Qed.

Lemma length_concat_rows {A} k (ds : list (list A)) :
  Forall (fun d => length d = k) ds -> length (concat ds) = length ds * k.
Proof.
  induction 1 as [|d ds Hd _ IH]; cbn; [reflexivity|]. rewrite length_app, IH, Hd. lia.
Qed.

Lemma pieces_concat {A} k (ds : list (list A)) :
  1 <= k -> Forall (fun d => length d = k) ds -> TensorOps.pieces k (concat ds) = ds.
Proof.
  intros Hk Hall. unfold TensorOps.pieces. apply pieces_fuel_concat; try assumption.
  rewrite (length_concat_rows k ds Hall). nia.
Qed.

Lemma add_rows_length a b : length a = length b -> length (TensorOps.add_rows a b) = length a.
Proof.
  revert b. induction a as [|x a IH]; intros [|y b] Hl; cbn in *; try lia.
  now rewrite IH by lia.
Qed.





Lemma fold_add_repeat n v acc i :
  acc = copies i v -> fold_left FVal.add (repeat v n) acc = copies (i + n) v.
Proof.
  revert acc i. induction n as [|n IH]; intros acc i ->; cbn [repeat fold_left].
  - now rewrite Nat.add_0_r.
  - rewrite (IH (FVal.add (copies i v) v) (S i) eq_refl). f_equal. lia.
Qed.

Lemma count_succ i :
  Q2Qc (inject_Z (Z.of_nat (S i))) = (Q2Qc (inject_Z (Z.of_nat i)) + Q2Qc 1)%Qc.
Proof.
  apply Qc_is_canon. unfold Qcplus. cbn [this Q2Qc]. rewrite !Qred_correct.
  rewrite Nat2Z.inj_succ, <- Z.add_1_r, inject_Z_plus. reflexivity.
Qed.

Lemma copies_fin i q :
  copies i (Fin q) = Fin (Q2Qc (inject_Z (Z.of_nat (S i))) * q)%Qc.
Proof.
  induction i as [|i IH].
  - cbn [copies]. f_equal. change (Q2Qc (inject_Z (Z.of_nat 1))) with (Q2Qc 1). ring.
  - cbn [copies]. rewrite IH. cbn [FVal.add]. f_equal.
    rewrite (count_succ (S i)). ring.
Qed.

Lemma count_sign i : FVal.sign (Q2Qc (inject_Z (Z.of_nat (S i)))) = Gt.
Proof.
  unfold FVal.sign, Qccompare. cbn [this Q2Qc].
  apply Qgt_alt. rewrite (Qred_correct (inject_Z (Z.of_nat (S i)))).
  change (Qred 0) with (inject_Z 0). rewrite <- Zlt_Qlt. lia.
Qed.

(** The mean of [i + 1] copies of an element is the element. *)
Lemma div_copies i v : FVal.div (copies i v) (Q2Qc (inject_Z (Z.of_nat (S i)))) = v.
Proof.
  pose proof (count_sign i) as Hs. destruct v as [|neg|q].
  - induction i as [|i IH]; [reflexivity|]. cbn [copies].
    destruct (copies i NaN); reflexivity.
  - assert (E : copies i (Inf neg) = Inf neg).
    { clear Hs. induction i as [|i IH]; [reflexivity|]. cbn [copies]. rewrite IH. cbn.
      now rewrite Bool.eqb_reflx. }
    rewrite E. cbn [FVal.div]. now rewrite Hs.
  - rewrite copies_fin. cbn [FVal.div]. rewrite Hs. f_equal. field.
    intros E. rewrite E in Hs. vm_compute in Hs. discriminate.
Qed.

Lemma stack_samples sh x0 xs st :
  Forall (sample_of sh) (x0 :: xs) -> TensorOps.stack (x0 :: xs) = Ok st ->
  st = {| shape := Z.of_nat (length (x0 :: xs)) :: sh;
          data := concat (map data (x0 :: xs)) |}.
Proof.
  intros Hall. unfold TensorOps.stack.
  destruct (forallb _ (x0 :: xs)); [|discriminate].
  intros E. injection E as <-. f_equal. f_equal.
  inversion Hall as [|? ? [Hs _] _]. exact Hs.
Qed.

(** The ensembled prediction of a stack whose samples have elements. *)
Lemma ensemble_rows sh x0 xs :
  Forall (sample_of sh) (x0 :: xs) -> 1 <= Z.to_nat (TensorOps.numel sh) ->
  _ensemble_brdfs {| shape := Z.of_nat (length (x0 :: xs)) :: sh;
                     data := concat (map data (x0 :: xs)) |}
  = {| shape := (1 :: sh)%Z;
       data := map (fun v => FVal.div v (Q2Qc (inject_Z (Z.of_nat (length (x0 :: xs))))))
                   (fold_left TensorOps.add_rows (map data xs) (data x0)) |}.
Proof.
  intros Hall Hk. unfold _ensemble_brdfs, TensorOps.mean0_keepdim. cbn [shape data].
  assert (Hrows : Forall (fun d => length d = Z.to_nat (TensorOps.numel sh))
                         (map data (x0 :: xs))).
  { apply Forall_map. eapply Forall_impl; [|exact Hall]. intros x [_ Hl]. exact Hl. }
  rewrite (pieces_concat _ _ Hk Hrows).
  rewrite Nat2Z.id. rewrite <- (length_map data (x0 :: xs)), firstn_all.
  reflexivity.
Qed.

Lemma ensemble_empty sh x0 xs :
  Forall (sample_of sh) (x0 :: xs) -> Z.to_nat (TensorOps.numel sh) = 0 ->
  _ensemble_brdfs {| shape := Z.of_nat (length (x0 :: xs)) :: sh;
                     data := concat (map data (x0 :: xs)) |}
  = {| shape := (1 :: sh)%Z; data := [] |}.
Proof.
  intros Hall Hk. unfold _ensemble_brdfs, TensorOps.mean0_keepdim. cbn [shape data].
  assert (E : concat (map data (x0 :: xs)) = []).
  { apply length_zero_iff_nil.
    rewrite (length_concat_rows 0).
    - lia.
    - apply Forall_map. eapply Forall_impl; [|exact Hall]. intros x [_ Hl]. lia. }
  rewrite E, Hk. unfold TensorOps.pieces. cbn [length TensorOps.pieces_fuel repeat].
  now rewrite firstn_nil.
Qed.



End EnsembleFacts.

(* ================================================================== *)
(** ** The batch-size heuristic: range, default and device memory *)

Module BatchSizeBounds.
Import Fl FlFacts PyFacts.

Lemma clamp_bs_le_bs ensemble_size bs0 : clamp_bs ensemble_size bs0 <= bs0.
Proof.
  unfold clamp_bs.
  destruct (bs0 >? ensemble_size) eqn:E1; [lia|].
  destruct (bs0 >? Py.ceil (Py.truediv ensemble_size 2)) eqn:E2;
    destruct (bs0 <? ensemble_size) eqn:E3; cbn [andb]; lia.
Qed.

Lemma clamp_bs_mono ensemble_size b1 b2 :
  b1 <= b2 -> clamp_bs ensemble_size b1 <= clamp_bs ensemble_size b2.
Proof.
  intros Hb. unfold clamp_bs.
  destruct (b1 >? ensemble_size) eqn:A1, (b2 >? ensemble_size) eqn:A2;
    destruct (b1 >? Py.ceil (Py.truediv ensemble_size 2)) eqn:B1;
    destruct (b2 >? Py.ceil (Py.truediv ensemble_size 2)) eqn:B2;
    destruct (b1 <? ensemble_size) eqn:C1; destruct (b2 <? ensemble_size) eqn:C2;
    cbn [andb]; lia.
Qed.

Lemma scan_table_none ensemble_size input_res vram l :
  Forall (fun s => fits input_res vram s = false) l ->
  scan_table ensemble_size input_res vram l = 1.
Proof.
  induction 1 as [|s l Hs _ IH]; cbn [scan_table]; [reflexivity|].
  now rewrite Hs.
Qed.

Lemma table_entries dt :
  Forall (fun s => res s <= 1024 /\ 10 <= total_vram s)
         (sorted (filter (fun s => DType_eqb (dtype s) dt) bs_search_table)).
Proof. destruct dt; vm_compute; repeat constructor; discriminate. Qed.

Lemma table_vram_ordered dt :
  vram_ordered (sorted (filter (fun s => DType_eqb (dtype s) dt) bs_search_table)) = true.
Proof. destruct dt; vm_compute; reflexivity. Qed.

(** The memory in GiB grows with the memory in bytes. *)
Lemma gib_mono m1 m2 :
  m1 <= m2 ->
  (Py.div_int_float m1 (inject_Z (1024 ^ 3)) <= Py.div_int_float m2 (inject_Z (1024 ^ 3)))%Q.
Proof.
  intros Hm. unfold Py.div_int_float. apply f64_mono.
  apply Qmult_le_compat_r; [|vm_compute; discriminate].
  apply f64_mono. now rewrite <- Zle_Qle.
Qed.

(** Less than ten times [2^30] bytes are less than 10 GiB. *)
Lemma gib_small m :
  m < 10 * 1024 ^ 3 -> (Py.div_int_float m (inject_Z (1024 ^ 3)) < 10)%Q.
Proof.
  intros Hm.
  assert (Hle : m <= 10 * 1024 ^ 3 - 1) by lia.
  pose proof (gib_mono _ _ Hle) as H1.
  assert (H2 : (Py.div_int_float (10 * 1024 ^ 3 - 1) (inject_Z (1024 ^ 3)) < 10)%Q)
    by (vm_compute; reflexivity).
  eapply Qle_lt_trans; eassumption.
Qed.

Lemma fits_mono input_res v1 v2 s :
  (v1 <= v2)%Q -> fits input_res v1 s = true -> fits input_res v2 s = true.
Proof.
  unfold fits. intros Hv H. apply andb_true_iff in H. destruct H as [H1 H2].
  rewrite H1. cbn [andb]. apply Qle_bool_iff. apply Qle_bool_iff in H2.
  eapply Qle_trans; eassumption.
Qed.

Lemma scan_table_mono ensemble_size input_res v1 v2 l :
  1 <= ensemble_size -> (v1 <= v2)%Q ->
  vram_ordered l = true -> Forall (fun s => 1 <= bs s) l ->
  scan_table ensemble_size input_res v1 l <= scan_table ensemble_size input_res v2 l.
Proof.
  intros He Hv. induction l as [|s l IH]; intros Hord Hbs; cbn [scan_table]; [lia|].
  cbn [vram_ordered] in Hord. apply andb_true_iff in Hord. destruct Hord as [Hs Hord].
  inversion Hbs as [|s0 l0 Hb1 Hbl]; subst.
  destruct (fits input_res v2 s) eqn:F2.
  - destruct (fits input_res v1 s) eqn:F1; [lia|].
    rewrite BatchSize.scan_table_find.
    destruct (find (fits input_res v1) l) as [s'|] eqn:Ef.
    + apply find_some in Ef. destruct Ef as [Hin F1'].
      apply clamp_bs_mono.
      rewrite forallb_forall in Hs. specialize (Hs s' Hin).
      apply orb_true_iff in Hs. destruct Hs as [Hs|Hs]; [|now apply Z.leb_le].
      exfalso. apply Z.leb_le in Hs.
      unfold fits in F1, F2, F1'.
      apply andb_true_iff in F2. destruct F2 as [R2 _].
      apply andb_true_iff in F1'. destruct F1' as [_ V1'].
      rewrite R2 in F1. cbn [andb] in F1.
      apply not_true_iff_false in F1. apply F1.
      apply Qle_bool_iff. apply Qle_bool_iff in V1'.
      eapply Qle_trans; [|exact V1']. now rewrite <- Zle_Qle.
    + apply CallFacts.clamp_bs_pos; assumption.
  - destruct (fits input_res v1 s) eqn:F1.
    + rewrite (fits_mono _ _ _ _ Hv F1) in F2. discriminate.
    + now apply IH.
Qed.

(** X1: the batch size found for an ensemble of at least one lies between
    1 and 40, whatever the input resolution, the format and the device. *)
Theorem find_batch_size_range `{Runtime} (ensemble_size input_res : Z) (dt : DType) :
  1 <= ensemble_size ->
  1 <= _find_batch_size ensemble_size input_res dt <= 40.
Proof.
  intros He. split; [now apply CallFacts.find_batch_size_pos|].
  unfold _find_batch_size. destruct (negb cuda_is_available); [lia|].
  rewrite BatchSize.scan_table_find.
  destruct (find _ _) as [s|] eqn:E; [|lia].
  apply find_some in E. destruct E as [Hin _].
  pose proof (proj1 (Forall_forall _ _) (BatchSize.table_bs_range dt) s Hin) as Hs.
  cbv beta in Hs. pose proof (clamp_bs_le_bs ensemble_size (bs s)). lia.
Qed.

Lemma find_batch_size_range_witness :
  1 <= 100 /\ 1 <= @_find_batch_size gpu_runtime 100 512 float32 <= 40.
Proof.
  split; [lia | apply (@find_batch_size_range gpu_runtime 100 512 float32); lia].
Defined.

(** X2: the batch size is 1, whatever the ensemble size, when there is no
    accelerator, when the format is neither [float32] nor [float16], when
    the input resolution is above 1024, or when the device has less than
    ten times [2^30] bytes. *)
Theorem find_batch_size_default `{Runtime} (ensemble_size input_res : Z) (dt : DType) :
  cuda_is_available = false \/ dt = bfloat16 \/ dt = float64 \/ 1024 < input_res \/
  cuda_total_memory < 10 * 1024 ^ 3 ->
  _find_batch_size ensemble_size input_res dt = 1.
Proof.
  intros Hc. unfold _find_batch_size.
  destruct cuda_is_available eqn:Ecuda; [|reflexivity]. cbn [negb].
  destruct Hc as [Hc|[Hc|[Hc|Hc]]]; [discriminate | subst dt; reflexivity
                                     | subst dt; reflexivity |].
  apply scan_table_none.
  pose proof (table_entries dt) as Ht.
  eapply Forall_impl; [|exact Ht]. cbv beta. intros s [Hr Hv]. unfold fits.
  destruct Hc as [Hc|Hc].
  - replace (input_res <=? res s) with false; [reflexivity|].
    symmetry. apply Z.leb_gt. lia.
  - replace (Qle_bool (inject_Z (total_vram s))
               (Py.div_int_float cuda_total_memory (inject_Z (1024 ^ 3)))) with false;
      [apply andb_false_r|].
    symmetry. apply not_true_iff_false. rewrite Qle_bool_iff.
    apply Qlt_not_le. eapply Qlt_le_trans; [apply gib_small, Hc|].
    change 10%Q with (inject_Z 10). now rewrite <- Zle_Qle.
Qed.

Lemma find_batch_size_default_witness :
  (@cuda_is_available (gpu_with 8589934592) = false \/ float16 = bfloat16 \/
   float16 = float64 \/ 1024 < 512 \/
   @cuda_total_memory (gpu_with 8589934592) < 10 * 1024 ^ 3) /\
  @_find_batch_size (gpu_with 8589934592) 10 512 float16 = 1.
Proof.
  assert (H : @cuda_is_available (gpu_with 8589934592) = false \/ float16 = bfloat16 \/
              float16 = float64 \/ 1024 < 512 \/
              @cuda_total_memory (gpu_with 8589934592) < 10 * 1024 ^ 3).
  { right. right. right. right. reflexivity. }
  split; [exact H | exact (@find_batch_size_default (gpu_with 8589934592) 10 512 float16 H)].
Defined.

(** X3: for a given ensemble size of at least one, input resolution and
    format, a device with more memory never gets a smaller batch size. *)
Theorem find_batch_size_mono_memory (R1 R2 : Runtime) (ensemble_size input_res : Z)
    (dt : DType) :
  1 <= ensemble_size ->
  @cuda_is_available R1 = @cuda_is_available R2 ->
  @cuda_total_memory R1 <= @cuda_total_memory R2 ->
  @_find_batch_size R1 ensemble_size input_res dt
  <= @_find_batch_size R2 ensemble_size input_res dt.
Proof.
  intros He Hc Hm. unfold _find_batch_size. rewrite Hc.
  destruct (negb (@cuda_is_available R2)); [lia|].
  apply scan_table_mono; [exact He | now apply gib_mono | apply table_vram_ordered |].
  eapply Forall_impl; [|apply (BatchSize.table_bs_range dt)]. cbv beta. intros s Hs. lia.
Qed.

Lemma find_batch_size_mono_memory_witness :
  1 <= 30 /\
  @_find_batch_size (gpu_with 12884901888) 30 768 float32
  <= @_find_batch_size (gpu_with 42949672960) 30 768 float32.
Proof.
  split; [lia|].
  apply (find_batch_size_mono_memory (gpu_with 12884901888) (gpu_with 42949672960)
           30 768 float32); [lia | reflexivity | vm_compute; discriminate].
Defined.

End BatchSizeBounds.

(* ================================================================== *)
(** ** The resolution normalizer: orientation, fixed size, longer edge *)

Module ResizeEdges.
Import Fl FlFacts PyFacts.
Local Open Scope Q_scope.

Lemma truediv_canon a b : Qred (Py.truediv a b) = Py.truediv a b.
Proof.
  unfold Py.truediv, f64, round. apply Qred_complete, Qred_correct.
Qed.

(** On floats, [min] does not depend on the order of its arguments. *)
Lemma py_min_truediv_comm a b c d :
  Py.min (Py.truediv a b) (Py.truediv c d) = Py.min (Py.truediv c d) (Py.truediv a b).
Proof.
  unfold Py.min.
  destruct (Qlt_le_dec (Py.truediv c d) (Py.truediv a b)) as [H1|H1],
           (Qlt_le_dec (Py.truediv a b) (Py.truediv c d)) as [H2|H2];
    try reflexivity; [lra|].
  rewrite <- (truediv_canon a b), <- (truediv_canon c d).
  apply Qred_complete. lra.
Qed.

Lemma downscale_factor_comm w h m : downscale_factor h w m = downscale_factor w h m.
Proof. unfold downscale_factor. apply py_min_truediv_comm. Qed.

Lemma py_int_comp x y : x == y -> Py.int x = Py.int y.
Proof.
  intros E. unfold Py.int.
  assert (Hb : Qle_bool 0 x = Qle_bool 0 y).
  { destruct (Qle_bool 0 x) eqn:E1, (Qle_bool 0 y) eqn:E2; try reflexivity.
    - apply Qle_bool_iff in E1. apply not_true_iff_false in E2.
      exfalso. apply E2, Qle_bool_iff. lra.
    - apply Qle_bool_iff in E2. apply not_true_iff_false in E1.
      exfalso. apply E1, Qle_bool_iff. lra. }
  rewrite Hb. destruct (Qle_bool 0 y); [now apply Qfloor_comp | now apply Qceiling_comp].
Qed.

Lemma py_int_Z z : Py.int (inject_Z z) = z.
Proof.
  unfold Py.int. destruct (Qle_bool 0 (inject_Z z)); [apply Qfloor_Z | apply Qceiling_Z].
Qed.

Lemma truediv_self a : edge_ok a -> Py.truediv a a == 1.
Proof.
  intros Ha. unfold Py.truediv, f64.
  rewrite (round_comp 53 _ (inject_Z 1)).
  - apply f64_Z. vm_compute. reflexivity.
  - change (inject_Z 1) with 1. field.
    pose proof (Resize.edge_pos a Ha). lra.
Qed.

Lemma truediv_ge_1 a b : edge_ok a -> edge_ok b -> (b <= a)%Z -> 1 <= Py.truediv a b.
Proof.
  intros Ha Hb Hle. unfold Py.truediv.
  apply (f64_ge_Z _ 1); [vm_compute; reflexivity|].
  change (inject_Z 1) with 1.
  apply Qle_shift_div_l; [now apply Resize.edge_pos|].
  rewrite Qmult_1_l, <- Zle_Qle. exact Hle.
Qed.

(** A target equal to the longer edge gives the factor one. *)
Lemma factor_one w h : edge_ok w -> edge_ok h -> downscale_factor w h (Z.max w h) == 1.
Proof.
  intros Hw Hh. unfold downscale_factor, Py.min.
  destruct (Z.max_spec w h) as [[Hlt E]|[Hle E]]; rewrite E.
  - pose proof (truediv_self h Hh) as H1.
    pose proof (truediv_ge_1 h w Hh Hw ltac:(lia)) as H2.
    destruct (Qlt_le_dec (Py.truediv h h) (Py.truediv h w)); [exact H1 | lra].
  - pose proof (truediv_self w Hw) as H1.
    pose proof (truediv_ge_1 w h Hw Hh Hle) as H2.
    destruct (Qlt_le_dec (Py.truediv w h) (Py.truediv w w)); [lra | exact H1].
Qed.

Lemma scaled_by_one a x : edge_ok a -> x == 1 -> Py.int (Py.mul_int_float a x) = a.
Proof.
  intros Ha Hx. rewrite Resize.mul_int_float_exact by exact Ha.
  rewrite <- (py_int_Z a) at 2. apply py_int_comp.
  unfold f64. rewrite (round_comp 53 _ (inject_Z a)) by (rewrite Hx; ring).
  apply f64_Z, Resize.edge_abs, Ha.
Qed.



(** X4: exchanging width and height of the input exchanges those of the
    size the image is resized to. *)
Theorem resize_dims_transpose (w h m : Z) :
  resize_dims h w m = (snd (resize_dims w h m), fst (resize_dims w h m)).
Proof.
  unfold resize_dims. cbv zeta. cbn [fst snd]. now rewrite downscale_factor_comm.
Qed.

(** X5: an image whose longer edge is the target keeps its size. *)
Theorem resize_dims_fixed (w h : Z) :
  edge_ok w -> edge_ok h -> resize_dims w h (Z.max w h) = (w, h).
Proof.
  intros Hw Hh. unfold resize_dims. cbv zeta.
  pose proof (factor_one w h Hw Hh) as Hs.
  now rewrite !scaled_by_one by assumption.
Qed.

Lemma resize_dims_fixed_witness :
  edge_ok 640 /\ edge_ok 480 /\ resize_dims 640 480 (Z.max 640 480) = (640, 480)%Z.
Proof.
  assert (H1 : edge_ok 640) by (split; reflexivity).
  assert (H2 : edge_ok 480) by (split; reflexivity).
  split; [exact H1|]. split; [exact H2|]. exact (resize_dims_fixed 640 480 H1 H2).
Defined.



End ResizeEdges.

(* ================================================================== *)
(** ** Rendering: order and saturation *)

Module RenderFacts.
Import Colorize FValFacts.

Lemma clip_unit_range y : (0 <= clip_unit y <= 1)%Q.
Proof.
  unfold clip_unit.
  destruct (Qle_bool y 0) eqn:E0; [split; discriminate|].
  destruct (Qle_bool y 1) eqn:E1; qbool; split; try lra; discriminate.
Qed.

Lemma clip_unit_mono x y : (x <= y)%Q -> (clip_unit x <= clip_unit y)%Q.
Proof.
  intros H. unfold clip_unit.
  destruct (Qle_bool x 0) eqn:A0, (Qle_bool y 0) eqn:B0;
    destruct (Qle_bool x 1) eqn:A1; destruct (Qle_bool y 1) eqn:B1;
    qbool; try lra; discriminate.
Qed.

Lemma clip_unit_comp x y : (x == y)%Q -> (clip_unit x == clip_unit y)%Q.
Proof. intros E. apply Qle_antisym; apply clip_unit_mono; lra. Qed.

(** The clipped sum, as a rational. *)
Lemma clip_value (y : Qc) :
  exists z : Qc, FVal.clip (Q2Qc 0) (Q2Qc 1) (Fin y) = Fin z /\ (this z == clip_unit (this y))%Q.
Proof.
  unfold FVal.clip, FVal.max, FVal.leb, clip_unit.
  change (this (Q2Qc 0)) with 0%Q.
  destruct (Qle_bool y 0) eqn:E0.
  - exists (Q2Qc 0). split; reflexivity.
  - unfold FVal.min, FVal.leb. change (this (Q2Qc 1)) with 1%Q.
    destruct (Qle_bool y 1) eqn:E1.
    + exists y. split; reflexivity.
    + exists (Q2Qc 1). split; reflexivity.
Qed.

(** The byte of a finite value: the floor of a number between 0 and 255
    that grows with the value. *)
Lemma colorize_value_fin (v : Qc) :
  exists r : Q,
    colorize_value (Fin v) = Qfloor r /\
    (r == Fl.round 24 (clip_unit (Fl.round 24 (this v + (1 # 2))) * 255))%Q /\
    (0 <= r <= 255)%Q.
Proof.
  unfold colorize_value. cbn [nan_to_num].
  destruct (ColorizeFacts.add_half_value v) as [y [-> Hy]].
  destruct (clip_value y) as [z [-> Hz]].
  assert (Hy' : (this y == Fl.round 24 (this v + (1 # 2)))%Q).
  { rewrite Hy. rewrite (FlFacts.round_comp 24 _ (this v + (1 # 2))); [reflexivity|].
    apply Qred_correct. }
  assert (Hr : (Fl.round 24 (this (z * Q2Qc (inject_Z 255))%Qc)
                == Fl.round 24 (clip_unit (Fl.round 24 (this v + (1 # 2))) * 255))%Q).
  { rewrite (FlFacts.round_comp 24 _ (clip_unit (Fl.round 24 (this v + (1 # 2))) * 255));
      [reflexivity|].
    cbn [Qcmult this Q2Qc]. rewrite Qred_correct, Hz.
    assert (Ec : (clip_unit y == clip_unit (Fl.round 24 (this v + (1 # 2))))%Q)
      by (apply clip_unit_comp, Hy').
    rewrite Ec. reflexivity. }
  pose proof (clip_unit_range (Fl.round 24 (this v + (1 # 2)))) as [Hc0 Hc1].
  set (c := clip_unit (Fl.round 24 (this v + (1 # 2)))) in *.
  assert (Hb : (0 <= Fl.round 24 (c * 255) <= 255)%Q).
  { split.
    - apply Qle_trans with (Fl.round 24 (inject_Z 0)).
      + rewrite FlFacts.round_Z by (try lia; vm_compute; reflexivity). discriminate.
      + apply FlFacts.round_mono; [lia|]. change (inject_Z 0) with 0%Q. lra.
    - apply Qle_trans with (Fl.round 24 (inject_Z 255)).
      + apply FlFacts.round_mono; [lia|]. change (inject_Z 255) with 255%Q. lra.
      + rewrite FlFacts.round_Z by (try lia; vm_compute; reflexivity). discriminate. }
  exists (Fl.round 24 (this (z * Q2Qc (inject_Z 255))%Qc)).
  split; [|split; [exact Hr | rewrite Hr; exact Hb]].
  unfold times_255, FVal.cast, FVal.mul, to_uint8.
  set (r := Fl.round 24 (this (z * Q2Qc (inject_Z 255))%Qc)) in *.
  assert (Er : (this (Q2Qc r) == r)%Q) by apply Qred_correct.
  assert (Hr0 : (0 <= r <= 255)%Q) by (rewrite Hr; exact Hb).
  rewrite (ResizeEdges.py_int_comp _ _ Er).
  rewrite PyFacts.py_int_floor by apply Hr0.
  apply Z.mod_small. split.
  - apply PyFacts.Qfloor_ge_Z. apply Hr0.
  - assert (Qfloor r <= 255); [|lia].
    apply PyFacts.Qfloor_le_Z. change (inject_Z 255) with 255%Q. lra.
Qed.

Lemma colorize_value_byte v : 0 <= colorize_value v <= 255.
Proof.
  unfold colorize_value, to_uint8.
  destruct (times_255 _); try lia.
  pose proof (Z.mod_pos_bound (Py.int q) 256). lia.
Qed.

Lemma colorize_value_fin_mono (x y : Qc) :
  (this x <= this y)%Q -> colorize_value (Fin x) <= colorize_value (Fin y).
Proof.
  intros H.
  destruct (colorize_value_fin x) as [r1 [-> [E1 _]]].
  destruct (colorize_value_fin y) as [r2 [-> [E2 _]]].
  apply Qfloor_resp_le. rewrite E1, E2.
  apply FlFacts.round_mono; [lia|].
  apply Qmult_le_compat_r; [|discriminate].
  apply clip_unit_mono, FlFacts.round_mono; [lia | lra].
Qed.

Lemma colorize_value_pos_inf : colorize_value (Inf false) = 255.
Proof. vm_compute. reflexivity. Qed.

Lemma colorize_value_neg_inf : colorize_value (Inf true) = 0.
Proof. vm_compute. reflexivity. Qed.

(** X7: the rendering keeps the order: of two elements of the prediction
    that are not NaN, the larger one is rendered as the larger or the same
    byte, and every byte lies between 0 and 255. *)
Theorem colorize_monotone (a b : fval) :
  FVal.leb a b = true ->
  0 <= colorize_value a /\ colorize_value a <= colorize_value b /\ colorize_value b <= 255.
Proof.
  intros H. pose proof (colorize_value_byte a) as Ha.
  pose proof (colorize_value_byte b) as Hb.
  destruct a as [|[|]|x], b as [|[|]|y]; cbn in H; try discriminate;
    rewrite ?colorize_value_pos_inf, ?colorize_value_neg_inf in *; try lia.
  apply Qle_bool_iff in H. pose proof (colorize_value_fin_mono x y H). lia.
Qed.

Lemma colorize_monotone_witness :
  FVal.leb (Fin (Q2Qc (-1 # 4))) (Fin (Q2Qc (1 # 4))) = true /\
  0 <= colorize_value (Fin (Q2Qc (-1 # 4))) /\
  colorize_value (Fin (Q2Qc (-1 # 4))) <= colorize_value (Fin (Q2Qc (1 # 4))) /\
  colorize_value (Fin (Q2Qc (1 # 4))) <= 255.
Proof.
  split; [reflexivity|].
  apply (colorize_monotone (Fin (Q2Qc (-1 # 4))) (Fin (Q2Qc (1 # 4)))). reflexivity.
Defined.

(** X8: every element from one half up, plus infinity included, is
    rendered as 255, and every element from minus one half down, minus
    infinity included, is rendered as 0: the sum with one half has left the
    interval that is clipped to. *)
Theorem colorize_saturates (v : fval) :
  (FVal.leb (Fin (Q2Qc (1 # 2))) v = true -> colorize_value v = 255) /\
  (FVal.leb v (Fin (Q2Qc (-1 # 2))) = true -> colorize_value v = 0).
Proof.
  split; intros H; destruct v as [|[|]|x]; cbn in H; try discriminate.
  - apply colorize_value_pos_inf.
  - apply ColorizeFacts.colorize_saturates_high. apply Qle_bool_iff in H. exact H.
  - apply colorize_value_neg_inf.
  - apply ColorizeFacts.colorize_saturates_low. apply Qle_bool_iff in H. exact H.
Qed.

Lemma colorize_saturates_witness :
  colorize_value (Fin (Q2Qc (3 # 4))) = 255 /\ colorize_value (Fin (Q2Qc (-3 # 5))) = 0.
Proof.
  split.
  - apply (proj1 (colorize_saturates (Fin (Q2Qc (3 # 4))))). reflexivity.
  - apply (proj2 (colorize_saturates (Fin (Q2Qc (-3 # 5))))). reflexivity.
Defined.

End RenderFacts.

(* ================================================================== *)
(** ** The normalisation of an image *)

Module NormaliseFacts.
Import Fl FlFacts PyFacts.
Local Open Scope Q_scope.

Lemma normalize_byte_mono b1 b2 :
  (Byte.to_N b1 <= Byte.to_N b2)%N -> normalize_byte b1 <= normalize_byte b2.
Proof.
  intros Hb. unfold normalize_byte, Py.truediv.
  assert (Hn : inject_Z (Z.of_N (Byte.to_N b1)) <= inject_Z (Z.of_N (Byte.to_N b2))).
  { rewrite <- Zle_Qle. lia. }
  set (n1 := inject_Z (Z.of_N (Byte.to_N b1))) in *.
  set (n2 := inject_Z (Z.of_N (Byte.to_N b2))) in *.
  assert (H1 : f64 (n1 / inject_Z 255) <= f64 (n2 / inject_Z 255)).
  { apply f64_mono. apply Qmult_le_compat_r; [exact Hn | discriminate]. }
  assert (H2 : f64 (f64 (n1 / inject_Z 255) * 2) <= f64 (f64 (n2 / inject_Z 255) * 2)).
  { apply f64_mono. lra. }
  apply f64_mono. lra.
Qed.

(** X9: the normalisation of a pixel byte keeps the order and sends 0 to
    -1 and 255 to 1 exactly; so, whatever the format of the pipeline, the
    tensor made from an image has the shape [3, H, W], three elements per
    pixel, and all its elements in [-1, 1]: the assertion on the range
    holds for every image. *)
Theorem image_normalisation `{Runtime} (img : Image) :
  (forall b1 b2, (Byte.to_N b1 <= Byte.to_N b2)%N -> normalize_byte b1 <= normalize_byte b2) /\
  normalize_byte x00 == -1 /\
  normalize_byte xff == 1 /\
  shape (image_to_tensor img) = [3; img_height img; img_width img]%Z /\
  length (data (image_to_tensor img)) = (3 * length (img_rgb img))%nat /\
  forallb in_range (data (image_to_tensor img)) = true.
Proof.
  split; [exact normalize_byte_mono|].
  split; [vm_compute; reflexivity|]. split; [vm_compute; reflexivity|].
  split; [reflexivity|]. split; [|apply CallFacts.image_tensor_in_range].
  unfold image_to_tensor. cbn [data]. rewrite !length_app, !length_map. lia.
Qed.

End NormaliseFacts.

(* ================================================================== *)
(** ** The batches of a prediction *)

Module BatchFacts.
Local Open Scope nat_scope.

Lemma batch_sizes_step n bs : 1 <= bs -> bs <= n -> batch_sizes n bs = bs :: batch_sizes (n - bs) bs.
Proof.
  intros Hb Hn. unfold batch_sizes.
  assert (Ed : n / bs = S ((n - bs) / bs)).
  { replace n with ((n - bs) + 1 * bs) at 1 by lia. rewrite Nat.div_add by lia. lia. }
  assert (Em : n mod bs = (n - bs) mod bs).
  { replace n with ((n - bs) + 1 * bs) at 1 by lia. apply Nat.Div0.mod_add. }
  rewrite Ed, Em. reflexivity.
Qed.

Lemma batch_sizes_short n bs : 1 <= n -> n < bs -> batch_sizes n bs = [n].
Proof.
  intros Hn Hb. unfold batch_sizes.
  rewrite Nat.div_small, Nat.mod_small by lia. cbn [repeat app].
  destruct (Nat.eqb_spec n 0); [lia | reflexivity].
Qed.

Lemma batch_sizes_0 bs : 1 <= bs -> batch_sizes 0 bs = [].
Proof.
  intros Hb. unfold batch_sizes. rewrite Nat.div_small, Nat.mod_small by lia. reflexivity.
Qed.

(** The pieces of a list have the sizes of the batches. *)
Lemma pieces_fuel_sizes {A} fuel bs (l : list A) :
  1 <= bs -> length l <= fuel ->
  map (@length A) (TensorOps.pieces_fuel fuel bs l) = batch_sizes (length l) bs.
Proof.
  intros Hb. revert l. induction fuel as [|fuel IH]; intros l Hf.
  - destruct l; [|cbn in Hf; lia]. cbn. now rewrite batch_sizes_0.
  - destruct l as [|a l]; [cbn; now rewrite batch_sizes_0|].
    cbn [TensorOps.pieces_fuel map].
    destruct (Nat.lt_ge_cases (length (a :: l)) bs) as [Hlt|Hge].
    + rewrite batch_sizes_short by (cbn [length] in *; lia).
      rewrite firstn_all2 by lia. rewrite skipn_all2 by lia.
      destruct fuel; reflexivity.
    + rewrite batch_sizes_step by assumption.
      rewrite length_firstn, Nat.min_l by assumption. f_equal.
      rewrite IH; [now rewrite length_skipn|].
      rewrite length_skipn. cbn [length] in Hf, Hge |- *. lia.
Qed.

Lemma pieces_fuel_incl {A} fuel bs (l : list A) p :
  In p (TensorOps.pieces_fuel fuel bs l) -> incl p l.
Proof.
  revert l. induction fuel as [|fuel IH]; intros l Hp.
  - destruct l; destruct Hp.
  - destruct l as [|a l]; [destruct Hp|].
    cbn [TensorOps.pieces_fuel] in Hp. destruct Hp as [<-|Hp].
    + intros x Hx. rewrite <- (firstn_skipn bs (a :: l)). apply in_or_app. now left.
    + intros x Hx. rewrite <- (firstn_skipn bs (a :: l)). apply in_or_app. right.
      exact (IH _ Hp x Hx).
Qed.

Lemma all_equal_repeat {A} (x : A) l : (forall y, In y l -> y = x) -> l = repeat x (length l).
Proof.
  induction l as [|a l IH]; intros H; [reflexivity|].
  cbn [length repeat]. rewrite (H a (or_introl eq_refl)). f_equal.
  apply IH. intros y Hy. apply H. now right.
Qed.

(** The pieces of a list of copies are lists of copies. *)
Lemma pieces_repeat {A} (x : A) n bs :
  1 <= bs -> TensorOps.pieces bs (repeat x n) = map (repeat x) (batch_sizes n bs).
Proof.
  intros Hb. unfold TensorOps.pieces.
  pose proof (pieces_fuel_sizes (length (repeat x n)) bs (repeat x n) Hb (Nat.le_refl _)) as Hs.
  rewrite repeat_length in *. rewrite <- Hs, map_map.
  rewrite <- (map_id (TensorOps.pieces_fuel n bs (repeat x n))) at 1.
  apply map_ext_in. intros p Hp. apply all_equal_repeat.
  intros y Hy. apply (pieces_fuel_incl _ _ _ _ Hp) in Hy. now apply repeat_spec in Hy.
Qed.

Lemma batch_sizes_pos n bs : 1 <= bs -> Forall (fun k => 1 <= k <= bs) (batch_sizes n bs).
Proof.
  intros Hb. unfold batch_sizes. apply Forall_app. split.
  - apply Forall_forall. intros k Hk. apply repeat_spec in Hk. lia.
  - destruct (Nat.eqb_spec (n mod bs) 0); constructor; [|constructor].
    pose proof (Nat.mod_upper_bound n bs). lia.
Qed.

Lemma batch_sizes_sum n bs : 1 <= bs -> fold_right Nat.add 0 (batch_sizes n bs) = n.
Proof.
  intros Hb. unfold batch_sizes.
  assert (Hr : forall k, fold_right Nat.add 0 (repeat bs k) = k * bs).
  { induction k as [|k IH]; cbn [repeat fold_right]; lia. }
  assert (Hf : forall a b, fold_right Nat.add 0 (a ++ b)
                           = fold_right Nat.add 0 a + fold_right Nat.add 0 b).
  { induction a as [|x a IH]; intros b; cbn [app fold_right]; [reflexivity|].
    rewrite IH. lia. }
  rewrite Hf, Hr. pose proof (Nat.div_mod_eq n bs) as Hd.
  destruct (Nat.eqb_spec (n mod bs) 0) as [E|E]; cbn [fold_right]; lia.
Qed.

Lemma stack_repeat (x : Tensor) k :
  1 <= k -> TensorOps.stack (repeat x k) = Ok (batch_of x k).
Proof.
  intros Hk. destruct k as [|k]; [lia|]. unfold TensorOps.stack.
  cbn [repeat].
  assert (Hb : forallb (fun u => if list_eq_dec Z.eq_dec (shape u) (shape x)
                                 then true else false) (x :: repeat x k) = true).
  { apply forallb_forall. intros u Hu.
    assert (u = x) as ->.
    { destruct Hu as [<-|Hu]; [reflexivity | now apply repeat_spec in Hu]. }
    destruct (list_eq_dec Z.eq_dec (shape x) (shape x)); congruence. }
  rewrite Hb. unfold batch_of. f_equal. f_equal.
  - change (x :: repeat x k) with (repeat x (S k)). now rewrite repeat_length.
  - change (x :: repeat x k) with (repeat x (S k)). now rewrite map_repeat.
Qed.

Lemma stack_each (x : Tensor) (ks : list nat) :
  Forall (fun k => 1 <= k) ks ->
  fold_right (fun b acc =>
                match TensorOps.stack b, acc with
                | Ok t, Ok ts => Ok (t :: ts)
                | Raise e, _ => Raise e
                | _, Raise e => Raise e
                end)
             (Ok []) (map (repeat x) ks)
  = Ok (map (batch_of x) ks).
Proof.
  induction 1 as [|k ks Hk _ IH]; [reflexivity|].
  cbn [map fold_right]. now rewrite IH, stack_repeat.
Qed.

Lemma batches_repeat (x : Tensor) (n : nat) (_bs : Z) :
  (1 <= _bs)%Z ->
  batches (repeat x n) _bs = Ok (map (batch_of x) (batch_sizes n (Z.to_nat _bs))).
Proof.
  intros Hbs. assert (Hb : 1 <= Z.to_nat _bs) by lia.
  unfold batches. destruct (_bs <=? 0)%Z eqn:E; [apply Z.leb_le in E; lia|].
  rewrite pieces_repeat by exact Hb. apply stack_each.
  eapply Forall_impl; [|apply batch_sizes_pos, Hb]. cbv beta. lia.
Qed.

(** X10: from the copies of the input, a [DataLoader] with a batch size of
    at least one draws full batches and then the remainder: every copy is
    in one batch, no batch is empty, and none is larger than the batch
    size; a batch size that covers the ensemble gives one batch. *)
Theorem batches_cover_ensemble (rgb_norm : Tensor) (ensemble_size : nat) (_bs : Z) :
  (1 <= _bs)%Z ->
  let sizes := batch_sizes ensemble_size (Z.to_nat _bs) in
  batches (repeat rgb_norm ensemble_size) _bs = Ok (map (batch_of rgb_norm) sizes) /\
  fold_right Nat.add 0 sizes = ensemble_size /\
  Forall (fun k => 1 <= k <= Z.to_nat _bs) sizes /\
  (1 <= ensemble_size <= Z.to_nat _bs -> sizes = [ensemble_size]).
Proof.
  intros Hbs. cbv zeta.
  assert (Hb : 1 <= Z.to_nat _bs) by lia.
  split; [now apply batches_repeat|].
  split; [now apply batch_sizes_sum|]. split; [now apply batch_sizes_pos|].
  intros [Hn Hle]. destruct (Nat.eq_dec ensemble_size (Z.to_nat _bs)) as [->|Hne].
  - rewrite batch_sizes_step by lia. rewrite Nat.sub_diag, batch_sizes_0 by lia.
    reflexivity.
  - apply batch_sizes_short; lia.
Qed.

Lemma batches_cover_ensemble_witness :
  (1 <= 4)%Z /\
  batches (repeat zeros_1322 10) 4
  = Ok [batch_of zeros_1322 4; batch_of zeros_1322 4; batch_of zeros_1322 2].
Proof.
  split; [lia|].
  exact (proj1 (batches_cover_ensemble zeros_1322 10 4 ltac:(lia))).
Defined.

End BatchFacts.

(* ================================================================== *)
(** ** The range of the prediction *)

Module RangeFacts.
Import FValFacts.

Lemma in_range_fin (q : Qc) : in_range (Fin q) = true <-> (-1 <= this q <= 1)%Q.
Proof.
  unfold in_range, FVal.leb. rewrite andb_true_iff, !Qle_bool_iff.
  change (this (Q2Qc (-1))) with (-1)%Q. change (this (Q2Qc 1)) with 1%Q. tauto.
Qed.

Lemma clipped_bounded v : clipped v = true <-> bounded 1 v.
Proof.
  destruct v as [|[|]|q]; cbn [clipped bounded]; try tauto.
  - split; [discriminate | tauto].
  - split; [discriminate | tauto].
  - rewrite in_range_fin. change (inject_Z (Z.of_nat 1)) with 1%Q. tauto.
Qed.

(** What [torch.clip] returns is a NaN or lies in [-1, 1]. *)
Lemma clip_clipped a : clipped (FVal.clip (Q2Qc (-1)) (Q2Qc 1) a) = true.
Proof.
  destruct a as [|[|]|x]; try reflexivity.
  unfold FVal.clip, FVal.max, FVal.leb.
  change (this (Q2Qc (-1))) with (-1)%Q.
  destruct (Qle_bool x (-1)) eqn:E0; [reflexivity|].
  unfold FVal.min, FVal.leb. change (this (Q2Qc 1)) with 1%Q.
  destruct (Qle_bool x 1) eqn:E1; [|reflexivity].
  cbn [clipped]. apply in_range_fin. qbool. lra.
Qed.

Lemma add_bounded i j a b : bounded i a -> bounded j b -> bounded (i + j) (FVal.add a b).
Proof.
  destruct a as [|[|]|x], b as [|[|]|y]; cbn [bounded FVal.add]; try tauto.
  intros Hx Hy. cbn [Qcplus this Q2Qc]. rewrite Qred_correct.
  rewrite Nat2Z.inj_add, inject_Z_plus. lra.
Qed.

Lemma add_rows_bounded i j a b :
  Forall (bounded i) a -> Forall (bounded j) b ->
  Forall (bounded (i + j)) (TensorOps.add_rows a b).
Proof.
  intros Ha. revert b. induction Ha as [|x a Hx _ IH]; intros b Hb; [constructor|].
  destruct Hb as [|y b Hy Hb]; cbn [TensorOps.add_rows]; constructor.
  - now apply add_bounded.
  - now apply IH.
Qed.

Lemma fold_add_rows_bounded rows : forall i r0,
  Forall (bounded i) r0 -> Forall (Forall (bounded 1)) rows ->
  Forall (bounded (i + length rows)) (fold_left TensorOps.add_rows rows r0).
Proof.
  induction rows as [|r rows IH]; intros i r0 H0 Hr; cbn [fold_left length].
  - now rewrite Nat.add_0_r.
  - inversion Hr as [|? ? Hr1 Hr2]; subst.
    replace (i + S (length rows))%nat with ((i + 1) + length rows)%nat by lia.
    apply IH; [now apply add_rows_bounded | exact Hr2].
Qed.

Lemma count_sign_Z n : 1 <= n -> FVal.sign (Q2Qc (inject_Z n)) = Gt.
Proof.
  intros Hn. unfold FVal.sign, Qccompare. cbn [this Q2Qc].
  apply Qgt_alt. rewrite (Qred_correct (inject_Z n)).
  change (Qred 0) with (inject_Z 0). rewrite <- Zlt_Qlt. lia.
Qed.

(** A sum of at most [n] elements of [-1, 1], divided by [n], is in
    [-1, 1]. *)
Lemma div_bounded k n v :
  bounded k v -> Z.of_nat k <= n -> 1 <= n ->
  clipped (FVal.div v (Q2Qc (inject_Z n))) = true.
Proof.
  intros Hv Hk Hn. destruct v as [|s|q]; cbn [bounded] in Hv; [reflexivity | tauto |].
  cbn [FVal.div]. rewrite (count_sign_Z n Hn). cbn [clipped]. apply in_range_fin.
  assert (E : (this (q / Q2Qc (inject_Z n))%Qc == this q / inject_Z n)%Q).
  { unfold Qcdiv, Qcmult, Qcinv. cbn [this Q2Qc]. rewrite !Qred_correct. reflexivity. }
  rewrite E.
  assert (Hn0 : (0 < inject_Z n)%Q).
  { change 0%Q with (inject_Z 0). rewrite <- Zlt_Qlt. lia. }
  assert (Hkn : (inject_Z (Z.of_nat k) <= inject_Z n)%Q) by (now rewrite <- Zle_Qle).
  split.
  - apply Qle_shift_div_l; [exact Hn0 | lra].
  - apply Qle_shift_div_r; [exact Hn0 | lra].
Qed.

(** The mean over the ensemble of elements that are NaN or in [-1, 1]
    holds only such elements. *)
Lemma mean_clipped t :
  forallb clipped (data t) = true ->
  forallb clipped (data (TensorOps.mean0_keepdim t)) = true.
Proof.
  intros Ht. unfold TensorOps.mean0_keepdim.
  destruct (shape t) as [|n sh]; [exact Ht|]. cbn [data].
  set (inner := Z.to_nat (TensorOps.numel sh)).
  destruct (firstn (Z.to_nat n) (TensorOps.pieces inner (data t))) as [|b bs] eqn:Eb.
  - apply forallb_forall. intros v Hv. apply in_map_iff in Hv.
    destruct Hv as [x [<- Hx]]. apply repeat_spec in Hx. now subst.
  - assert (Hlen : (length (b :: bs) <= Z.to_nat n)%nat).
    { rewrite <- Eb. apply firstn_le_length. }
    assert (Hrows : Forall (Forall (bounded 1)) (b :: bs)).
    { apply Forall_forall. intros r Hr. apply Forall_forall. intros v Hv.
      apply clipped_bounded. rewrite forallb_forall in Ht. apply Ht.
      assert (Hr' : In r (TensorOps.pieces inner (data t))).
      { rewrite <- (firstn_skipn (Z.to_nat n) (TensorOps.pieces inner (data t))).
        apply in_or_app. left. now rewrite Eb. }
      exact (BatchFacts.pieces_fuel_incl _ _ _ _ Hr' v Hv). }
    inversion Hrows as [|? ? Hb0 Hbs]; subst.
    pose proof (fold_add_rows_bounded bs 1 b Hb0 Hbs) as Hsum.
    apply forallb_forall. intros v Hv. apply in_map_iff in Hv.
    destruct Hv as [x [<- Hx]].
    rewrite Forall_forall in Hsum. cbn [length] in Hlen.
    apply (div_bounded (1 + length bs)); [now apply Hsum | lia | lia].
Qed.

Lemma permute120_incl t t' : TensorOps.permute120 t = Ok t' -> incl (data t') (data t).
Proof.
  unfold TensorOps.permute120.
  destruct (shape t) as [|c [|h [|w [|? ?]]]]; try discriminate.
  intros E. injection E as <-. cbn [data]. intros x Hx.
  apply in_flat_map in Hx. destruct Hx as [i [_ Hx]].
  apply in_flat_map in Hx. destruct Hx as [pl [Hpl Hx]].
  destruct (nth_error pl i) as [y|] eqn:Ey; [|destruct Hx].
  destruct Hx as [<-|[]]. apply nth_error_In in Ey.
  exact (BatchFacts.pieces_fuel_incl _ _ _ _ Hpl y Ey).
Qed.

Lemma cast_clipped v : clipped v = true -> clipped (FVal.cast 24 v) = true.
Proof.
  destruct v as [|[|]|q]; cbn [FVal.cast]; try (intros H; exact H).
  cbn [clipped]. rewrite !in_range_fin. intros [H0 H1].
  cbn [this Q2Qc]. rewrite Qred_correct. split.
  - apply Qle_trans with (Fl.round 24 (inject_Z (-1))).
    + rewrite FlFacts.round_Z by (try lia; vm_compute; reflexivity). discriminate.
    + apply FlFacts.round_mono; [lia | exact H0].
  - apply Qle_trans with (Fl.round 24 (inject_Z 1)).
    + apply FlFacts.round_mono; [lia | exact H1].
    + rewrite FlFacts.round_Z by (try lia; vm_compute; reflexivity). discriminate.
Qed.

Lemma nan_to_num_in_range v :
  clipped v = true -> in_range (Colorize.nan_to_num (Q2Qc 0) v) = true.
Proof. destruct v as [|[|]|q]; cbn; try discriminate; [reflexivity | intros H; exact H]. Qed.

Lemma nan_to_num_finite v : finite (Colorize.nan_to_num (Q2Qc 0) v) = true.
Proof. destruct v as [|[|]|q]; reflexivity. Qed.

Section WithRuntime.
Context `{Runtime}.
Local Open Scope pipeline_scope.

(** One prediction adds one entry to the log, whether it returns or not. *)
Lemma single_infer_log rgb_in n w :
  log (snd (single_infer rgb_in n w)) = log w ++ [EvInfer rgb_in n].
Proof.
  unfold single_infer, bind, emit, lift, run_denoise, ret. cbn [rng log].
  destruct (_encode_rgb rgb_in) as [rgb_latent|e]; [|reflexivity].
  destruct (denoise (rng w) rgb_latent n) as [g brdf_latent].
  destruct (_decode_brdf brdf_latent) as [brdf|e]; reflexivity.
Qed.

Lemma single_infer_result rgb_in n w t w' :
  single_infer rgb_in n w = (Ok t, w') -> forallb clipped (data t) = true.
Proof.
  unfold single_infer, bind, emit, lift, run_denoise, ret. cbn [rng log].
  destruct (_encode_rgb rgb_in) as [rgb_latent|e]; [|discriminate].
  destruct (denoise (rng w) rgb_latent n) as [g brdf_latent].
  destruct (_decode_brdf brdf_latent) as [brdf|e]; [|discriminate].
  intros E. injection E as <- _. cbn [TensorOps.map data].
  apply forallb_forall. intros v Hv. apply in_map_iff in Hv.
  destruct Hv as [x [<- _]]. apply clip_clipped.
Qed.

Lemma infer_batches_ok bl n : forall w ps w1,
  infer_batches bl n w = (Ok ps, w1) ->
  log w1 = log w ++ map (fun t => EvInfer t n) bl /\
  Forall (fun p => forallb clipped (data p) = true) ps.
Proof.
  induction bl as [|b bl IH]; intros w ps w1; cbn [infer_batches map].
  - unfold ret. intros E. injection E as <- <-. rewrite app_nil_r. now split.
  - unfold bind at 1. pose proof (single_infer_log b n w) as Hl.
    pose proof (single_infer_result b n w) as Hr.
    destruct (single_infer b n w) as [[p|e] w2]; [|discriminate].
    cbn [snd] in Hl. specialize (Hr p w2 eq_refl).
    unfold bind at 1. specialize (IH w2).
    destruct (infer_batches bl n w2) as [[ps'|e] w3]; [|discriminate].
    destruct (IH ps' w3 eq_refl) as [IH1 IH2].
    unfold ret. intros E. injection E as <- <-.
    rewrite IH1, Hl, <- app_assoc. split; [reflexivity | now constructor].
Qed.

Lemma concat0_data ts t : TensorOps.concat0 ts = Ok t -> data t = concat (map data ts).
Proof.
  unfold TensorOps.concat0. destruct ts as [|t0 ts]; [discriminate|].
  destruct (forallb _ (t0 :: ts)); [|discriminate].
  intros E. now injection E as <-.
Qed.

Lemma concat_clipped (ps : list Tensor) :
  Forall (fun p => forallb clipped (data p) = true) ps ->
  forallb clipped (concat (map data ps)) = true.
Proof.
  induction 1 as [|p ps Hp _ IH]; [reflexivity|].
  cbn [map concat]. now rewrite forallb_app, Hp, IH.
Qed.

(** What a prediction that returns has done and what it returns. *)
Lemma predict_ok rgb_norm denoising_steps ensemble_size batch_size w preds w1 :
  predict rgb_norm denoising_steps ensemble_size batch_size w = (Ok preds, w1) ->
  exists _bs,
    batch_size_used rgb_norm ensemble_size batch_size = Ok _bs /\ 1 <= _bs /\
    1 <= ensemble_size /\
    log w1 = log w ++ map (fun k => EvInfer (batch_of rgb_norm k) denoising_steps)
                          (batch_sizes (Z.to_nat ensemble_size) (Z.to_nat _bs)) /\
    forallb clipped (data preds) = true.
Proof.
  unfold predict, batch_size_used.
  assert (He : 1 <= ensemble_size \/ Z.to_nat ensemble_size = 0%nat) by lia.
  destruct He as [He|He]; [|rewrite He; discriminate].
  unfold bind at 1.
  destruct (lift (TensorOps.stack (repeat rgb_norm (Z.to_nat ensemble_size))) w)
    as [[st|e] w0] eqn:Est; [|discriminate].
  assert (w0 = w) as -> by (unfold lift in Est; now injection Est).
  unfold bind at 1.
  assert (Hbs : forall b,
            (if batch_size >? 0 then ret batch_size
             else input_res <- lift (max_of (tl (shape rgb_norm))) ;;
                  ret (_find_batch_size ensemble_size input_res pipeline_dtype)) w
            = (Ok b, w) ->
            (if batch_size >? 0 then Ok batch_size
             else and_then (max_of (tl (shape rgb_norm)))
                    (fun input_res =>
                       Ok (_find_batch_size ensemble_size input_res pipeline_dtype)))
            = Ok b).
  { intros b. destruct (batch_size >? 0).
    - unfold ret. intros E. now injection E as <-.
    - unfold bind, lift, ret, and_then.
      destruct (max_of (tl (shape rgb_norm))) as [r|e]; [|discriminate].
      intros E. now injection E as <-. }
  assert (Hw : forall o w',
            (if batch_size >? 0 then ret batch_size
             else input_res <- lift (max_of (tl (shape rgb_norm))) ;;
                  ret (_find_batch_size ensemble_size input_res pipeline_dtype)) w
            = (o, w') -> w' = w).
  { intros o w'. destruct (batch_size >? 0).
    - unfold ret. intros E. now injection E.
    - unfold bind, lift, ret.
      destruct (max_of (tl (shape rgb_norm))) as [r|e]; intros E; now injection E. }
  destruct ((if batch_size >? 0 then ret batch_size
             else input_res <- lift (max_of (tl (shape rgb_norm))) ;;
                  ret (_find_batch_size ensemble_size input_res pipeline_dtype)) w)
    as [[_bs|e] w0] eqn:Ebs; [|discriminate].
  pose proof (Hw _ _ eq_refl) as ->. specialize (Hbs _bs eq_refl).
  unfold bind at 1. unfold lift at 1.
  destruct (Z_lt_le_dec _bs 1) as [Hlt|Hge].
  { unfold batches. replace (_bs <=? 0) with true by (symmetry; apply Z.leb_le; lia).
    discriminate. }
  rewrite (BatchFacts.batches_repeat rgb_norm (Z.to_nat ensemble_size) _bs Hge).
  unfold bind at 1.
  pose proof (infer_batches_ok
                (map (batch_of rgb_norm) (batch_sizes (Z.to_nat ensemble_size) (Z.to_nat _bs)))
                denoising_steps w) as Hib.
  destruct (infer_batches _ denoising_steps w) as [[ps|e] w2]; [|discriminate].
  destruct (Hib ps w2 eq_refl) as [Hlog Hps].
  unfold bind, lift, ret.
  destruct (TensorOps.concat0 ps) as [cat|e] eqn:Ecat; [|discriminate].
  intros E. injection E as <- <-.
  exists _bs. split; [exact Hbs|]. split; [exact Hge|]. split; [exact He|]. split.
  - rewrite Hlog, map_map. reflexivity.
  - cbn [TensorOps.squeeze data]. rewrite (concat0_data _ _ Ecat).
    now apply concat_clipped.
Qed.

Lemma postprocess_clipped input_size brdf_preds ensemble_size albedo_pred :
  postprocess input_size brdf_preds ensemble_size false = Ok albedo_pred ->
  forallb clipped (data brdf_preds) = true ->
  forallb clipped (data albedo_pred) = true.
Proof.
  unfold postprocess. intros E Hp.
  assert (Hm : forall a,
            (if ensemble_size >? 1 then Ok (_ensemble_brdfs brdf_preds)
             else if ensemble_size =? 1 then Ok brdf_preds else Raise Exception) = Ok a ->
            forallb clipped (data a) = true).
  { intros a. destruct (ensemble_size >? 1).
    - intros Ea. injection Ea as <-. now apply mean_clipped.
    - destruct (ensemble_size =? 1); [|discriminate]. intros Ea. now injection Ea as <-. }
  destruct (if ensemble_size >? 1 then Ok (_ensemble_brdfs brdf_preds)
            else if ensemble_size =? 1 then Ok brdf_preds else Raise Exception)
    as [a|e]; [|discriminate].
  specialize (Hm a eq_refl).
  assert (Hperm : forall t t', TensorOps.permute120 t = Ok t' ->
                               forallb clipped (data t) = true ->
                               forallb clipped (data (TensorOps.map (FVal.cast 24) t')) = true).
  { intros t t' Et Ht. cbn [TensorOps.map data]. apply forallb_forall.
    intros v Hv. apply in_map_iff in Hv. destruct Hv as [x [<- Hx]].
    apply cast_clipped. rewrite forallb_forall in Ht.
    apply Ht, (permute120_incl _ _ Et), Hx. }
  destruct (TensorOps.ndim a =? 4).
  - destruct (TensorOps.permute120 (TensorOps.squeeze0 a)) as [t'|e] eqn:Et; [|discriminate].
    injection E as <-. apply (Hperm _ _ Et). now rewrite CallFacts.squeeze0_data.
  - destruct (TensorOps.ndim a =? 3); [|discriminate].
    destruct (TensorOps.permute120 a) as [t'|e] eqn:Et; [|discriminate].
    injection E as <-. exact (Hperm _ _ Et Hm).
Qed.

(** With a tensor as input there is no size to resize back to. *)
Lemma postprocess_no_size brdf_preds ensemble_size :
  1 <= ensemble_size ->
  postprocess None brdf_preds ensemble_size true = Raise TypeError.
Proof.
  intros He. unfold postprocess.
  destruct (ensemble_size >? 1) eqn:E1; [reflexivity|].
  destruct (ensemble_size =? 1) eqn:E2; [reflexivity|].
  rewrite Z.gtb_ltb in E1. apply Z.ltb_ge in E1. apply Z.eqb_neq in E2. lia.
Qed.

Lemma postprocess_no_size_fails brdf_preds ensemble_size :
  succeeded (postprocess None brdf_preds ensemble_size true) = false.
Proof.
  unfold postprocess.
  destruct (ensemble_size >? 1); [reflexivity|].
  destruct (ensemble_size =? 1); reflexivity.
Qed.

End WithRuntime.

Lemma to_uint8_byte v : 0 <= Colorize.to_uint8 v <= 255.
Proof.
  unfold Colorize.to_uint8. destruct v as [| |q]; try lia.
  pose proof (Z.mod_pos_bound (Py.int q) 256). lia.
Qed.

Lemma colorize_value_nan_to_num v :
  Colorize.colorize_value (Colorize.nan_to_num (Q2Qc 0) v) = Colorize.colorize_value v.
Proof. destruct v as [|[|]|q]; reflexivity. Qed.

(** X11: what [single_infer] returns holds only NaNs and numbers in
    [-1, 1]: never an infinity, never a number outside the interval. *)
Theorem single_infer_clipped `{Runtime} (rgb_in : Tensor) (num_inference_steps : Z)
    (w : world) (brdf : Tensor) (w' : world) :
  single_infer rgb_in num_inference_steps w = (Ok brdf, w') ->
  forallb clipped (data brdf) = true.
Proof. apply single_infer_result. Qed.

Lemma single_infer_clipped_witness :
  exists brdf w',
    @single_infer cpu_runtime (batch_of (TensorOps.squeeze0 zeros_1322) 2) 1 fresh_world
    = (Ok brdf, w') /\
    forallb clipped (data brdf) = true.
Proof.
  destruct (@single_infer cpu_runtime (batch_of (TensorOps.squeeze0 zeros_1322) 2) 1
              fresh_world) as [[brdf|e] w'] eqn:E; [|vm_compute in E; discriminate E].
  exists brdf, w'. split; [reflexivity|].
  exact (@single_infer_clipped cpu_runtime _ _ _ _ _ E).
Defined.

(** X12: a prediction that returns has worked with a batch size of at
    least one, the one asked for or the one found for the input; it has run
    [single_infer] once per batch and in order, on full batches of copies
    of the input followed by the remainder; and what it returns holds only
    NaNs and numbers in [-1, 1]. *)
Theorem predict_runs_batches `{Runtime} (rgb_norm : Tensor)
    (denoising_steps ensemble_size batch_size : Z) (w : world) (brdf_preds : Tensor)
    (w1 : world) :
  predict rgb_norm denoising_steps ensemble_size batch_size w = (Ok brdf_preds, w1) ->
  exists _bs,
    batch_size_used rgb_norm ensemble_size batch_size = Ok _bs /\ 1 <= _bs /\
    1 <= ensemble_size /\
    log w1 = log w ++ map (fun k => EvInfer (batch_of rgb_norm k) denoising_steps)
                          (batch_sizes (Z.to_nat ensemble_size) (Z.to_nat _bs)) /\
    forallb clipped (data brdf_preds) = true.
Proof. apply predict_ok. Qed.

Lemma predict_runs_batches_witness :
  exists brdf_preds w1,
    @predict cpu_runtime (TensorOps.squeeze0 zeros_1322) 1 5 2 fresh_world
    = (Ok brdf_preds, w1) /\
    log w1 = map (fun k => EvInfer (batch_of (TensorOps.squeeze0 zeros_1322) k) 1)
                 [2; 2; 1]%nat.
Proof.
  destruct (@predict cpu_runtime (TensorOps.squeeze0 zeros_1322) 1 5 2 fresh_world)
    as [[brdf_preds|e] w1] eqn:E; [|vm_compute in E; discriminate E].
  exists brdf_preds, w1. split; [reflexivity|].
  destruct (@predict_runs_batches cpu_runtime _ _ _ _ _ _ _ E) as [_bs [Hb [_ [_ [Hl _]]]]].
  injection Hb as <-. exact Hl.
Defined.

(** X13: the array a call returns holds only numbers, no NaN and no
    infinity; when the prediction is not resized back to the input, they
    all lie in [-1, 1].  The image a call returns has the shape of the
    array and is its rendering, element by element, with bytes between 0
    and 255, and the uncertainty is always absent. *)
Theorem call_output `{Runtime} (input_image : Input)
    (denoising_steps ensemble_size processing_res : Z) (match_input_res : bool)
    (batch_size : Z) (w : world) (out : MaterialOutput) (w' : world) :
  __call__ input_image denoising_steps ensemble_size processing_res
    match_input_res batch_size w = (Ok out, w') ->
  forallb finite (data (albedo_np out)) = true /\
  (match_input_res = false -> forallb in_range (data (albedo_np out)) = true) /\
  bi_shape (albedo_pil out) = shape (albedo_np out) /\
  bi_bytes (albedo_pil out) = map Colorize.colorize_value (data (albedo_np out)) /\
  Forall (fun c => 0 <= c <= 255) (bi_bytes (albedo_pil out)) /\
  uncertainty out = None.
Proof.
  unfold __call__. unfold bind at 1.
  destruct (preprocess _ _ _ _ w) as [[rgb_norm|e] w0]; [|discriminate].
  unfold bind at 1.
  pose proof (predict_ok rgb_norm denoising_steps ensemble_size batch_size w0) as Hp.
  destruct (predict _ _ _ _ w0) as [[brdf_preds|e] w1]; [|discriminate].
  destruct (Hp _ _ eq_refl) as [_bs [_ [_ [_ [_ Hc]]]]].
  unfold bind, lift.
  pose proof (postprocess_clipped (size_of input_image) brdf_preds ensemble_size) as Hpost.
  destruct (postprocess _ brdf_preds _ match_input_res) as [albedo_pred|e] eqn:Epost;
    [|discriminate].
  cbv zeta. unfold Colorize.colorize, ret. intros E. injection E as <- _.
  cbn [albedo_np albedo_pil uncertainty bi_shape bi_bytes TensorOps.map data shape].
  split; [|split; [|split; [reflexivity | split; [|split; [|reflexivity]]]]].
  - apply forallb_forall. intros v Hv. apply in_map_iff in Hv.
    destruct Hv as [x [<- _]]. apply nan_to_num_finite.
  - intros ->. specialize (Hpost _ Epost Hc).
    apply forallb_forall. intros v Hv. apply in_map_iff in Hv.
    destruct Hv as [x [<- Hx]]. apply nan_to_num_in_range.
    rewrite forallb_forall in Hpost. now apply Hpost.
  - rewrite !map_map. apply map_ext. intros v.
    now rewrite colorize_value_nan_to_num.
  - apply Forall_forall. intros c Hc'. apply in_map_iff in Hc'.
    destruct Hc' as [x [<- _]]. apply to_uint8_byte.
Qed.

Lemma call_output_witness :
  exists out w',
    @__call__ cpu_runtime (InImage (grey_image 2 2)) 1 3 0 false 2 fresh_world
    = (Ok out, w') /\
    forallb in_range (data (albedo_np out)) = true /\
    shape (albedo_np out) = [2; 2; 2].
Proof.
  destruct (@__call__ cpu_runtime (InImage (grey_image 2 2)) 1 3 0 false 2 fresh_world)
    as [[out|e] w'] eqn:E; [|vm_compute in E; discriminate E].
  exists out, w'. split; [reflexivity|].
  destruct (@call_output cpu_runtime _ _ _ _ _ _ _ _ _ E) as [_ [Hr _]].
  split; [exact (Hr eq_refl)|].
  vm_compute in E. injection E as <- _. reflexivity.
Defined.

(** X14: a call that returns has resized the input if it is an image and
    a nonzero processing resolution is asked for, and has then run
    [single_infer] once per batch of the normalised input, in order, and
    nothing else. *)
Theorem call_runs `{Runtime} (input_image : Input)
    (denoising_steps ensemble_size processing_res : Z) (match_input_res : bool)
    (batch_size : Z) (w : world) (out : MaterialOutput) (w' : world) :
  __call__ input_image denoising_steps ensemble_size processing_res
    match_input_res batch_size w = (Ok out, w') ->
  exists rgb_norm _bs,
    fst (preprocess input_image denoising_steps ensemble_size processing_res w)
    = Ok rgb_norm /\
    batch_size_used rgb_norm ensemble_size batch_size = Ok _bs /\
    log w' = log w
             ++ match input_image with
                | InImage img => resize_events img processing_res
                | InTensor _ => []
                end
             ++ map (fun k => EvInfer (batch_of rgb_norm k) denoising_steps)
                    (batch_sizes (Z.to_nat ensemble_size) (Z.to_nat _bs)).
Proof.
  intros E.
  pose proof (CallFacts.preprocess_log input_image denoising_steps ensemble_size
                processing_res w) as Hlog.
  destruct (preprocess input_image denoising_steps ensemble_size processing_res w)
    as [[rgb_norm|e] w0] eqn:Epre.
  2:{ rewrite (CallFacts.call_raise _ _ _ _ _ _ _ _ _ Epre) in E. discriminate. }
  pose proof (CallFacts.call_after_preprocess _ _ _ _ match_input_res batch_size _ _ _ Epre)
    as Hsnd.
  rewrite E in Hsnd. cbn [snd] in Hsnd, Hlog.
  assert (Hargs : (processing_res >=? 0) && (denoising_steps >=? 1) && (ensemble_size >=? 1)
                  = true).
  { destruct ((processing_res >=? 0) && (denoising_steps >=? 1) && (ensemble_size >=? 1))
      eqn:Ha; [reflexivity|].
    apply not_true_iff_false in Ha. rewrite CallFacts.args_valid_iff in Ha.
    rewrite CallFacts.preprocess_invalid_args in Epre by lia. discriminate. }
  rewrite Hargs in Hlog.
  destruct (predict rgb_norm denoising_steps ensemble_size batch_size w0)
    as [[brdf_preds|e] w1] eqn:Epred.
  - cbn [snd] in Hsnd. subst w1.
    destruct (predict_ok _ _ _ _ _ _ _ Epred) as [_bs [Hb [_ [_ [Hl _]]]]].
    exists rgb_norm, _bs. split; [reflexivity|]. split; [exact Hb|].
    rewrite Hl, Hlog, <- app_assoc. reflexivity.
  - exfalso. revert E. unfold __call__. unfold bind at 1. rewrite Epre.
    unfold bind at 1. rewrite Epred. discriminate.
Qed.

Lemma call_runs_witness :
  exists out w',
    @__call__ cpu_runtime (InImage (grey_image 4 2)) 1 3 2 false 2 fresh_world
    = (Ok out, w') /\
    exists rgb_norm,
      log w' = [EvResize (grey_image 4 2) 2; EvInfer (batch_of rgb_norm 2) 1;
                EvInfer (batch_of rgb_norm 1) 1].
Proof.
  destruct (@__call__ cpu_runtime (InImage (grey_image 4 2)) 1 3 2 false 2 fresh_world)
    as [[out|e] w'] eqn:E; [|vm_compute in E; discriminate E].
  exists out, w'. split; [reflexivity|].
  destruct (@call_runs cpu_runtime _ _ _ _ _ _ _ _ _ E) as [rgb_norm [_bs [_ [Hb Hl]]]].
  exists rgb_norm. injection Hb as <-. exact Hl.
Defined.

(** X15: a call on a tensor that asks for the prediction to be resized
    back to the input never returns: a tensor has no size to go back to.
    When the preprocessing and the prediction have gone through, the call
    stops there with a type error. *)
Theorem tensor_input_match_res_fails `{Runtime} (t : Tensor)
    (denoising_steps ensemble_size processing_res batch_size : Z) (w : world) :
  succeeded (fst (__call__ (InTensor t) denoising_steps ensemble_size processing_res
                    true batch_size w)) = false /\
  (forall rgb_norm w0 brdf_preds w1,
     preprocess (InTensor t) denoising_steps ensemble_size processing_res w
     = (Ok rgb_norm, w0) ->
     predict rgb_norm denoising_steps ensemble_size batch_size w0 = (Ok brdf_preds, w1) ->
     __call__ (InTensor t) denoising_steps ensemble_size processing_res
       true batch_size w = (Raise TypeError, w1)).
Proof.
  split.
  - unfold __call__. unfold bind at 1.
    destruct (preprocess _ _ _ _ w) as [[rgb_norm|e] w0]; [|reflexivity].
    unfold bind at 1.
    destruct (predict _ _ _ _ w0) as [[brdf_preds|e] w1]; [|reflexivity].
    unfold bind, lift. cbn [size_of].
    pose proof (postprocess_no_size_fails brdf_preds ensemble_size) as Hf.
    destruct (postprocess None brdf_preds ensemble_size true); [discriminate | reflexivity].
  - intros rgb_norm w0 brdf_preds w1 Epre Epred.
    unfold __call__. unfold bind at 1. rewrite Epre. unfold bind at 1. rewrite Epred.
    destruct (predict_ok _ _ _ _ _ _ _ Epred) as [_bs [_ [_ [He _]]]].
    unfold bind, lift. cbn [size_of]. now rewrite postprocess_no_size.
Qed.

Lemma tensor_input_match_res_fails_witness :
  exists w1,
    @__call__ cpu_runtime (InTensor zeros_1322) 1 1 512 true 1 fresh_world
    = (Raise TypeError, w1) /\
    inferred (log w1) = true.
Proof.
  destruct (@predict cpu_runtime (TensorOps.squeeze0 zeros_1322) 1 1 1 fresh_world)
    as [[brdf_preds|e] w1] eqn:E; [|vm_compute in E; discriminate E].
  exists w1. split.
  - apply (proj2 (@tensor_input_match_res_fails cpu_runtime zeros_1322 1 1 512 1 fresh_world)
             (TensorOps.squeeze0 zeros_1322) fresh_world brdf_preds w1);
      [vm_compute; reflexivity | exact E].
  - vm_compute in E. injection E as _ <-. reflexivity.
Defined.

End RangeFacts.

(* ================================================================== *)
(** ** Ensembling a batch of one *)

Module EnsembleOnce.
Import EnsembleFacts.
Local Open Scope nat_scope.

Lemma div_one v : FVal.div v (Q2Qc (inject_Z 1)) = v.
Proof. exact (div_copies 0 v). Qed.

(** The mean of a batch of one sample is the sample. *)
Lemma mean_single sh d :
  length d = Z.to_nat (TensorOps.numel sh) ->
  _ensemble_brdfs {| shape := (1 :: sh)%Z; data := d |} = {| shape := (1 :: sh)%Z; data := d |}.
Proof.
  intros Hl. unfold _ensemble_brdfs, TensorOps.mean0_keepdim. cbn [shape data].
  f_equal. destruct (Z.to_nat (TensorOps.numel sh)) as [|k] eqn:Hk.
  - apply length_zero_iff_nil in Hl. subst d. reflexivity.
  - assert (Hp : TensorOps.pieces (S k) d = [d]).
    { rewrite <- (app_nil_r d) at 1.
      apply (pieces_concat (S k) [d]); [lia | now constructor]. }
    rewrite Hp. cbn [Z.to_nat Pos.to_nat Pos.iter_op firstn fold_left].
    rewrite <- (map_id d) at 2. apply map_ext. intros v. apply div_one.
Qed.

Lemma fold_add_rows_length k rows r0 :
  length r0 = k -> Forall (fun d => length d = k) rows ->
  length (fold_left TensorOps.add_rows rows r0) = k.
Proof.
  intros H0 Hall. revert r0 H0. induction Hall as [|d rows Hd _ IH]; intros r0 H0.
  - exact H0.
  - cbn [fold_left]. apply IH. rewrite add_rows_length; lia.
Qed.

(** X16: ensembling a stack of one sample returns it as it is, and
    ensembling what has been ensembled changes nothing. *)
Theorem ensemble_idempotent (xs : list Tensor) (sh : list Z) (st : Tensor) :
  1 <= length xs ->
  Forall (sample_of sh) xs ->
  TensorOps.stack xs = Ok st ->
  (length xs = 1 -> _ensemble_brdfs st = st) /\
  _ensemble_brdfs (_ensemble_brdfs st) = _ensemble_brdfs st.
Proof.
  intros Hn Hall Hst. destruct xs as [|x0 xs]; [cbn in Hn; lia|].
  rewrite (stack_samples sh x0 xs st Hall Hst).
  assert (H0 : length (data x0) = Z.to_nat (TensorOps.numel sh)).
  { inversion Hall as [|? ? [_ Hl] _]. exact Hl. }
  split.
  - intros H1. destruct xs; [|cbn in H1; lia].
    cbn [length map concat Z.of_nat Pos.of_succ_nat]. rewrite app_nil_r.
    now apply mean_single.
  - destruct (Z.to_nat (TensorOps.numel sh)) as [|k'] eqn:Hk.
    + rewrite (ensemble_empty sh x0 xs Hall Hk). apply mean_single. now rewrite Hk.
    + assert (Hk1 : 1 <= Z.to_nat (TensorOps.numel sh)) by lia.
      rewrite (ensemble_rows sh x0 xs Hall Hk1). apply mean_single.
      rewrite length_map, Hk. apply fold_add_rows_length; [lia|].
      apply Forall_map. inversion Hall as [|? ? _ Hxs]. subst.
      eapply Forall_impl; [|exact Hxs]. intros x [_ Hl]. cbv beta. lia.
Qed.

Lemma ensemble_idempotent_witness :
  let x := {| shape := [1; 2]%Z; data := [Fin (Q2Qc (1 # 3)); Inf false] |} in
  let y := {| shape := [1; 2]%Z; data := [Fin (Q2Qc (-1 # 2)); NaN] |} in
  exists st,
    TensorOps.stack [x; y] = Ok st /\
    _ensemble_brdfs (_ensemble_brdfs st) = _ensemble_brdfs st.
Proof.
  cbv zeta.
  set (x := {| shape := [1; 2]%Z; data := [Fin (Q2Qc (1 # 3)); Inf false] |}).
  set (y := {| shape := [1; 2]%Z; data := [Fin (Q2Qc (-1 # 2)); NaN] |}).
  assert (H1 : 1 <= length [x; y]) by (cbn; lia).
  assert (H2 : Forall (sample_of [1; 2]%Z) [x; y]) by (repeat constructor).
  eexists. split; [reflexivity|].
  exact (proj2 (ensemble_idempotent [x; y] [1; 2]%Z _ H1 H2 eq_refl)).
Defined.

End EnsembleOnce.

(* ================================================================== *)
(** ** The embedding of the empty prompt and the loop *)

Module DenoiseFacts.

Section WithDenoiser.
Context `{Denoiser}.

Lemma text_encoder_runs_app l1 l2 :
  text_encoder_runs (l1 ++ l2) = (text_encoder_runs l1 + text_encoder_runs l2)%nat.
Proof. unfold text_encoder_runs. now rewrite filter_app, length_app. Qed.

(** The loop leaves the embedding alone and calls the U-Net only: once per
    timestep when it gets to the end, always with the same embedding and
    the same image latent. *)
Lemma denoising_loop_calls timesteps n rgb_latent e : forall brdf_latent self,
  let r := denoising_loop timesteps n rgb_latent e brdf_latent self in
  generator (snd r) = generator self /\
  empty_text_embed (snd r) = empty_text_embed self /\
  exists l, calls (snd r) = calls self ++ l /\
            Forall (conditioned_on rgb_latent e) l /\
            (succeeded (fst r) = true -> map timestep_of l = map Some timesteps).
Proof.
  induction timesteps as [|t ts IH]; intros brdf_latent self; cbn [denoising_loop]; cbv zeta.
  - cbn [fst snd]. split; [reflexivity|]. split; [reflexivity|].
    exists []. rewrite app_nil_r. repeat split. constructor.
  - destruct (cat_dim1 brdf_latent rgb_latent) as [u|x] eqn:Ecat.
    + match goal with
      | |- context [denoising_loop ts n rgb_latent e ?b ?s] =>
          specialize (IH b s); cbv zeta in IH;
          destruct (denoising_loop ts n rgb_latent e b s) as [o s'] eqn:El
      end.
      cbn [fst snd generator empty_text_embed calls] in *.
      destruct IH as [Hg [He [l [Hl [Hc Ht]]]]].
      split; [exact Hg|]. split; [exact He|].
      exists (CallUNet u t e :: l). split; [|split].
      * rewrite Hl, <- app_assoc. reflexivity.
      * constructor; [|exact Hc]. cbn. split; [reflexivity | eauto].
      * intros Hs. cbn [map timestep_of]. now rewrite (Ht Hs).
    + cbn [fst snd]. split; [reflexivity|]. split; [reflexivity|].
      exists []. rewrite app_nil_r. repeat split; [constructor | discriminate].
Qed.

Lemma conditioned_not_text rgb_latent e l :
  Forall (conditioned_on rgb_latent e) l -> text_encoder_runs l = 0%nat.
Proof.
  induction 1 as [|c l Hc _ IH]; [reflexivity|].
  destruct c; [destruct Hc|]. exact IH.
Qed.

(** What one call does to the pipeline object. *)
Lemma single_infer_steps_effect rgb_in n self :
  let r := single_infer_steps rgb_in n self in
  match empty_text_embed self with
  | Some e =>
      empty_text_embed (snd r) = Some e /\
      text_encoder_runs (calls (snd r)) = text_encoder_runs (calls self)
  | None =>
      (empty_text_embed (snd r) = None /\
       text_encoder_runs (calls (snd r)) = text_encoder_runs (calls self) /\
       succeeded (_encode_rgb rgb_in) = false) \/
      (empty_text_embed (snd r) = Some kept_embedding /\
       text_encoder_runs (calls (snd r)) = S (text_encoder_runs (calls self)))
  end.
Proof.
  cbv zeta. unfold single_infer_steps.
  destruct (_encode_rgb rgb_in) as [rgb_latent|x].
  2:{ cbn [snd succeeded]. destruct (empty_text_embed self); [now split|]. left. now repeat split. }
  destruct (randn (generator self) (shape rgb_latent)) as [g brdf_latent].
  cbn [empty_text_embed].
  destruct (empty_text_embed self) as [e|] eqn:Ee.
  - cbn [empty_text_embed].
    destruct (repeat_batch (TensorOps.shape_hd rgb_latent) e) as [tiled|x];
      [|cbn [snd empty_text_embed calls]; now split].
    match goal with
    | |- context [denoising_loop ?ts n rgb_latent ?be brdf_latent ?s] =>
        pose proof (denoising_loop_calls ts n rgb_latent be brdf_latent s) as Hl;
        cbv zeta in Hl;
        destruct (denoising_loop ts n rgb_latent be brdf_latent s) as [[b|x] s'] eqn:El
    end;
      cbn [fst snd generator empty_text_embed calls] in Hl;
      destruct Hl as [_ [He [l [Hc [Hf _]]]]].
    + destruct (_decode_brdf b); cbn [snd]; rewrite He, Hc, text_encoder_runs_app,
        (conditioned_not_text _ _ _ Hf); split; (reflexivity || lia).
    + cbn [snd]. rewrite He, Hc, text_encoder_runs_app, (conditioned_not_text _ _ _ Hf).
      split; (reflexivity || lia).
  - right. unfold _encode_empty_text. cbv zeta. cbn [generator empty_text_embed calls].
    fold kept_embedding.
    assert (Hruns : text_encoder_runs (calls self ++ [CallTextEncoder])
                    = S (text_encoder_runs (calls self))).
    { rewrite text_encoder_runs_app. cbn. lia. }
    destruct (last_dim kept_embedding) as [d|x];
      [|cbn [snd empty_text_embed calls]; now split].
    destruct (d =? 1024); [|cbn [snd empty_text_embed calls]; now split].
    cbn [empty_text_embed].
    destruct (repeat_batch (TensorOps.shape_hd rgb_latent) kept_embedding) as [tiled|x];
      [|cbn [snd empty_text_embed calls]; now split].
    match goal with
    | |- context [denoising_loop ?ts n rgb_latent ?be brdf_latent ?s] =>
        pose proof (denoising_loop_calls ts n rgb_latent be brdf_latent s) as Hl;
        cbv zeta in Hl;
        destruct (denoising_loop ts n rgb_latent be brdf_latent s) as [[b|x] s'] eqn:El
    end;
      cbn [fst snd generator empty_text_embed calls] in Hl;
      destruct Hl as [_ [He [l [Hc [Hf _]]]]].
    + destruct (_decode_brdf b); cbn [snd]; rewrite He, Hc, text_encoder_runs_app,
        (conditioned_not_text _ _ _ Hf), Hruns; split; (reflexivity || lia).
    + cbn [snd]. rewrite He, Hc, text_encoder_runs_app, (conditioned_not_text _ _ _ Hf), Hruns.
      split; (reflexivity || lia).
Qed.

Lemma run_calls_kept inputs : forall self e,
  empty_text_embed self = Some e ->
  empty_text_embed (run_calls inputs self) = Some e /\
  text_encoder_runs (calls (run_calls inputs self)) = text_encoder_runs (calls self).
Proof.
  induction inputs as [|[rgb_in n] inputs IH]; intros self e He; cbn [run_calls].
  - now split.
  - pose proof (single_infer_steps_effect rgb_in n self) as Hs. cbv zeta in Hs.
    rewrite He in Hs. destruct Hs as [H1 H2].
    destruct (IH _ e H1) as [H3 H4]. split; [exact H3 | now rewrite H4].
Qed.

Lemma run_calls_fresh inputs : forall self,
  empty_text_embed self = None ->
  (empty_text_embed (run_calls inputs self) = None /\
   text_encoder_runs (calls (run_calls inputs self)) = text_encoder_runs (calls self)) \/
  (empty_text_embed (run_calls inputs self) = Some kept_embedding /\
   text_encoder_runs (calls (run_calls inputs self)) = S (text_encoder_runs (calls self))).
Proof.
  induction inputs as [|[rgb_in n] inputs IH]; intros self He; cbn [run_calls].
  - left. now split.
  - pose proof (single_infer_steps_effect rgb_in n self) as Hs. cbv zeta in Hs.
    rewrite He in Hs. destruct Hs as [[H1 [H2 _]]|[H1 H2]].
    + destruct (IH _ H1) as [[H3 H4]|[H3 H4]]; [left | right];
        (split; [exact H3 | now rewrite H4, H2]).
    + right. destruct (run_calls_kept inputs _ _ H1) as [H3 H4].
      split; [exact H3 | now rewrite H4].
Qed.

Lemma cat_dim1_raises a b x :
  cat_dim1 a b = Raise x -> x = RuntimeError \/ x = IndexError.
Proof.
  unfold cat_dim1.
  destruct (shape a) as [|n [|ca sh]], (shape b) as [|n' [|cb sh']];
    try (intros E; injection E as <-; tauto).
  destruct ((n =? n') && (if list_eq_dec Z.eq_dec sh sh' then true else false));
    [discriminate | intros E; injection E as <-; tauto].
Qed.

Lemma denoising_loop_raises timesteps n rgb_latent e : forall brdf_latent self x,
  fst (denoising_loop timesteps n rgb_latent e brdf_latent self) = Raise x ->
  x = RuntimeError \/ x = IndexError.
Proof.
  induction timesteps as [|t ts IH]; intros brdf_latent self x; cbn [denoising_loop].
  - discriminate.
  - destruct (cat_dim1 brdf_latent rgb_latent) as [u|y] eqn:Ecat.
    + apply IH.
    + cbn [fst]. intros E. injection E as <-. exact (cat_dim1_raises _ _ _ Ecat).
Qed.

Lemma repeat_batch_raises b t x : repeat_batch b t = Raise x -> x = RuntimeError.
Proof.
  unfold repeat_batch. destruct (shape t) as [|d0 [|d1 [|d2 [|d3 sh]]]]; try discriminate.
  intros E. now injection E as <-.
Qed.

Lemma decode_brdf_raises t x : _decode_brdf t = Raise x -> x = IndexError.
Proof.
  unfold _decode_brdf. destruct (TensorOps.ndim _ =? 4); [discriminate|].
  intros E. now injection E as <-.
Qed.

(** Once the embedding is there, a call whose image can be encoded does
    not fail on an assertion. *)
Lemma single_infer_steps_no_assert rgb_in n self e :
  empty_text_embed self = Some e ->
  succeeded (_encode_rgb rgb_in) = true ->
  fst (single_infer_steps rgb_in n self) <> Raise AssertionError.
Proof.
  intros He Hok. unfold single_infer_steps.
  destruct (_encode_rgb rgb_in) as [rgb_latent|x]; [|discriminate].
  destruct (randn (generator self) (shape rgb_latent)) as [g brdf_latent].
  cbn [empty_text_embed]. rewrite He. cbn [empty_text_embed].
  destruct (repeat_batch (TensorOps.shape_hd rgb_latent) e) as [tiled|x] eqn:Er.
  2:{ cbn [fst]. rewrite (repeat_batch_raises _ _ _ Er). discriminate. }
  match goal with
  | |- context [denoising_loop ?ts n rgb_latent ?be brdf_latent ?s] =>
      pose proof (denoising_loop_raises ts n rgb_latent be brdf_latent s) as Hl;
      destruct (denoising_loop ts n rgb_latent be brdf_latent s) as [[b|x] s'] eqn:El
  end.
  - destruct (_decode_brdf b) as [brdf|x] eqn:Ed; cbn [fst]; [discriminate|].
    rewrite (decode_brdf_raises _ _ Ed). discriminate.
  - cbn [fst] in *. destruct (Hl x eq_refl) as [->| ->]; discriminate.
Qed.

(** What a call that returns has done. *)
Lemma single_infer_steps_ok rgb_in n self brdf self' :
  single_infer_steps rgb_in n self = (Ok brdf, self') ->
  exists rgb_latent embed tiled l,
    _encode_rgb rgb_in = Ok rgb_latent /\
    generator self' = fst (randn (generator self) (shape rgb_latent)) /\
    empty_text_embed self' = Some embed /\
    repeat_batch (TensorOps.shape_hd rgb_latent) embed = Ok tiled /\
    calls self' = calls self
                  ++ (match empty_text_embed self with
                      | None => [CallTextEncoder]
                      | Some _ => []
                      end) ++ l /\
    map timestep_of l = map Some (scheduler_timesteps n) /\
    Forall (conditioned_on rgb_latent
              (TensorOps.map (FVal.cast (precision pipeline_dtype)) tiled)) l /\
    forallb clipped (data brdf) = true.
Proof.
  unfold single_infer_steps.
  destruct (_encode_rgb rgb_in) as [rgb_latent|x]; [|discriminate].
  destruct (randn (generator self) (shape rgb_latent)) as [g brdf_latent] eqn:Ern.
  cbn [empty_text_embed].
  assert (Hcache : exists s1 e,
            (match empty_text_embed self with
             | None => _encode_empty_text
                         {| generator := g; empty_text_embed := empty_text_embed self;
                            calls := calls self |}
             | Some _ => (Ok tt, {| generator := g; empty_text_embed := empty_text_embed self;
                                    calls := calls self |})
             end = (Ok tt, s1) /\
             empty_text_embed s1 = Some e /\ generator s1 = g /\
             calls s1 = calls self ++ match empty_text_embed self with
                                      | None => [CallTextEncoder]
                                      | Some _ => []
                                      end) \/
            (exists x s1,
               match empty_text_embed self with
               | None => _encode_empty_text
                           {| generator := g; empty_text_embed := empty_text_embed self;
                              calls := calls self |}
               | Some _ => (Ok tt, {| generator := g; empty_text_embed := empty_text_embed self;
                                      calls := calls self |})
               end = (Raise x, s1))).
  { destruct (empty_text_embed self) as [e|] eqn:Ee.
    - exists {| generator := g; empty_text_embed := Some e; calls := calls self |}, e.
      left. cbn. rewrite app_nil_r. now repeat split.
    - unfold _encode_empty_text. cbv zeta. cbn [generator empty_text_embed calls].
      destruct (last_dim _) as [d|x].
      + destruct (d =? 1024).
        * eexists. eexists. left. split; [reflexivity|]. cbn. now repeat split.
        * exists self, rgb_latent. right. eauto.
      + exists self, rgb_latent. right. eauto. }
  destruct Hcache as [s1 [e [[Ec [He [Hg Hcalls]]]|[x [s1' Ec]]]]]; rewrite Ec; [|discriminate].
  rewrite He.
  destruct (repeat_batch (TensorOps.shape_hd rgb_latent) e) as [tiled|x] eqn:Er;
    [|discriminate].
  match goal with
  | |- context [denoising_loop ?ts n rgb_latent ?be brdf_latent ?s] =>
      pose proof (denoising_loop_calls ts n rgb_latent be brdf_latent s) as Hl;
      cbv zeta in Hl;
      destruct (denoising_loop ts n rgb_latent be brdf_latent s) as [[b|x] s'] eqn:El
  end; [|discriminate].
  cbn [fst snd] in Hl. destruct Hl as [Hg' [He' [l [Hc [Hf Ht]]]]].
  destruct (_decode_brdf b) as [brdf0|x]; [|discriminate].
  intros E. injection E as <- <-.
  exists rgb_latent, e, tiled, l.
  split; [reflexivity|]. split; [now rewrite Hg', Hg, Ern|].
  split; [now rewrite He', He|]. split; [exact Er|].
  split; [now rewrite Hc, Hcalls, app_assoc|].
  split; [exact (Ht eq_refl)|]. split; [exact Hf|].
  cbn [TensorOps.map data]. apply forallb_forall. intros v Hv.
  apply in_map_iff in Hv. destruct Hv as [y [<- _]]. apply RangeFacts.clip_clipped.
Qed.

End WithDenoiser.

(** X17: on one pipeline object, whatever calls of [single_infer] are made
    one after the other and however they end, the text encoder runs at most
    once; the embedding is absent as long as it has not run and is, from
    then on, the one it has returned, which later calls neither replace nor
    compute again. *)
Theorem text_encoder_once `{Denoiser} (inputs more : list (Tensor * Z)) (g : G) :
  let self := run_calls inputs (new_pipe g) in
  ((empty_text_embed self = None /\ text_encoder_runs (calls self) = 0%nat) \/
   (empty_text_embed self = Some kept_embedding /\ text_encoder_runs (calls self) = 1%nat)) /\
  (empty_text_embed self = Some kept_embedding ->
   empty_text_embed (run_calls more self) = Some kept_embedding /\
   text_encoder_runs (calls (run_calls more self)) = 1%nat).
Proof.
  cbv zeta.
  pose proof (run_calls_fresh inputs (new_pipe g) eq_refl) as Hf.
  cbn [new_pipe calls] in Hf. change (text_encoder_runs []) with 0%nat in Hf.
  split; [exact Hf|].
  intros He. destruct (run_calls_kept more _ _ He) as [H1 H2].
  split; [exact H1|]. rewrite H2.
  destruct Hf as [[Hn _]|[_ Hr]]; [congruence | exact Hr].
Qed.

Lemma text_encoder_once_witness :
  let D := cpu_denoiser 1024 in
  let rgb_in := batch_of (TensorOps.squeeze0 zeros_1322) 2 in
  let self := @run_calls cpu_runtime D [(rgb_in, 3); (rgb_in, 2)] (@new_pipe cpu_runtime tt) in
  text_encoder_runs (calls self) = 1%nat /\
  text_encoder_runs (calls (@run_calls cpu_runtime D [(rgb_in, 1)] self)) = 1%nat.
Proof.
  cbv zeta.
  destruct (@text_encoder_once cpu_runtime (cpu_denoiser 1024)
              [(batch_of (TensorOps.squeeze0 zeros_1322) 2, 3);
               (batch_of (TensorOps.squeeze0 zeros_1322) 2, 2)]
              [(batch_of (TensorOps.squeeze0 zeros_1322) 2, 1)] tt)
    as [[[Hn _]|[He Hr]] Hkeep].
  - vm_compute in Hn. discriminate Hn.
  - split; [exact Hr | exact (proj2 (Hkeep He))].
Defined.

(** X18: the assertion on the dimension of the embedding is made on the
    first use only, after the embedding has been stored.  With a text
    encoder whose embedding has not dimension 1024, the first call whose
    image can be encoded stops on the assertion and leaves the embedding on
    the pipeline object; no later call whose image can be encoded stops on
    an assertion. *)
Theorem embedding_checked_once `{Denoiser} (rgb_in : Tensor) (num_inference_steps : Z)
    (self : pipe) (d : Z) :
  empty_text_embed self = None ->
  succeeded (_encode_rgb rgb_in) = true ->
  last_dim kept_embedding = Ok d -> d <> 1024 ->
  let first := single_infer_steps rgb_in num_inference_steps self in
  fst first = Raise AssertionError /\
  empty_text_embed (snd first) = Some kept_embedding /\
  forall rgb_in' num_inference_steps',
    succeeded (_encode_rgb rgb_in') = true ->
    fst (single_infer_steps rgb_in' num_inference_steps' (snd first))
    <> Raise AssertionError.
Proof.
  intros He Hok Hd Hne. cbv zeta.
  assert (H1 : fst (single_infer_steps rgb_in num_inference_steps self) = Raise AssertionError
               /\ empty_text_embed (snd (single_infer_steps rgb_in num_inference_steps self))
                  = Some kept_embedding).
  { unfold single_infer_steps.
    destruct (_encode_rgb rgb_in) as [rgb_latent|x]; [|discriminate].
    destruct (randn (generator self) (shape rgb_latent)) as [g brdf_latent].
    cbn [empty_text_embed]. rewrite He.
    unfold _encode_empty_text. cbv zeta. fold kept_embedding. rewrite Hd.
    apply Z.eqb_neq in Hne. rewrite Hne. now split. }
  destruct H1 as [H1 H2]. split; [exact H1|]. split; [exact H2|].
  intros rgb_in' n' Hok'. exact (single_infer_steps_no_assert rgb_in' n' _ _ H2 Hok').
Qed.

Lemma embedding_checked_once_witness :
  let D := cpu_denoiser 768 in
  let rgb_in := batch_of (TensorOps.squeeze0 zeros_1322) 2 in
  let first := @single_infer_steps cpu_runtime D rgb_in 3 (@new_pipe cpu_runtime tt) in
  fst first = Raise AssertionError /\
  succeeded (fst (@single_infer_steps cpu_runtime D rgb_in 3 (snd first))) = true.
Proof.
  cbv zeta. split.
  - apply (@embedding_checked_once cpu_runtime (cpu_denoiser 768)
             (batch_of (TensorOps.squeeze0 zeros_1322) 2) 3
             (@new_pipe cpu_runtime tt) 768);
      [reflexivity | vm_compute; reflexivity | vm_compute; reflexivity | discriminate].
  - vm_compute. reflexivity.
Defined.

(** X19: a call of [single_infer] that returns has drawn its noise once,
    with the shape of the image latent; it has run the text encoder first
    if and only if the embedding was absent, and then the U-Net once per
    timestep of the scheduler, in their order, each time with the embedding
    kept on the pipeline object, repeated over the batch, and with an input
    that ends with the same image latent; and what it returns holds only
    NaNs and numbers in [-1, 1]. *)
Theorem single_infer_steps_calls `{Denoiser} (rgb_in : Tensor) (num_inference_steps : Z)
    (self : pipe) (brdf : Tensor) (self' : pipe) :
  single_infer_steps rgb_in num_inference_steps self = (Ok brdf, self') ->
  exists rgb_latent embed tiled l,
    _encode_rgb rgb_in = Ok rgb_latent /\
    generator self' = fst (randn (generator self) (shape rgb_latent)) /\
    empty_text_embed self' = Some embed /\
    repeat_batch (TensorOps.shape_hd rgb_latent) embed = Ok tiled /\
    calls self' = calls self
                  ++ (match empty_text_embed self with
                      | None => [CallTextEncoder]
                      | Some _ => []
                      end) ++ l /\
    map timestep_of l = map Some (scheduler_timesteps num_inference_steps) /\
    Forall (conditioned_on rgb_latent
              (TensorOps.map (FVal.cast (precision pipeline_dtype)) tiled)) l /\
    forallb clipped (data brdf) = true.
Proof. apply single_infer_steps_ok. Qed.

Lemma single_infer_steps_calls_witness :
  let D := cpu_denoiser 1024 in
  let rgb_in := batch_of (TensorOps.squeeze0 zeros_1322) 2 in
  exists brdf self' l,
    @single_infer_steps cpu_runtime D rgb_in 3 (@new_pipe cpu_runtime tt) = (Ok brdf, self') /\
    calls self' = CallTextEncoder :: l /\
    map timestep_of l = [Some 2; Some 1; Some 0].
Proof.
  cbv zeta.
  destruct (@single_infer_steps cpu_runtime (cpu_denoiser 1024)
              (batch_of (TensorOps.squeeze0 zeros_1322) 2) 3
              (@new_pipe cpu_runtime tt))
    as [[brdf|x] self'] eqn:E; [|vm_compute in E; discriminate E].
  destruct (@single_infer_steps_calls cpu_runtime (cpu_denoiser 1024) _ _ _ _ _ E)
    as [rgb_latent [embed [tiled [l [_ [_ [_ [_ [Hc [Ht _]]]]]]]]]].
  exists brdf, self', l. split; [reflexivity|]. split; [exact Hc | exact Ht].
Defined.

End DenoiseFacts.
